(** * avro-typescript-converter: the schema-to-declaration translator

    A shallow embedding of the translator of the sources (the [index.ts]
    that threads [hasDefaultValue] and knows logical decimal types):
    [convertPrimitive], [convertEnum], [convertRecord], [convertType],
    [convertFieldDec] and [avroToTypeScript], run in a state that holds the
    module's [interfaces] table, the output buffer and the console.

    The table is a plain JavaScript object.  It is modelled as a finite map
    of its own keys, with the two places where such an object is not a
    dictionary written out: the call [interfaces.hasOwnProperty(n)] raises
    once a key named [hasOwnProperty] has been stored, and storing at
    [__proto__] creates no key.  Nothing else in the translator can raise, so
    a translation either returns or ends in that TypeError. *)

From Stdlib Require Import ZArith Ascii String List Lia.
From stdpp Require Import base option list strings gmap.

Local Open Scope Z_scope.

#[local] Set Warnings "-register-all".

(** ** Strings and arrays as the translator uses them *)

Definition LF : string := String (ascii_of_nat 10) "".
Definition TAB : string := String (ascii_of_nat 9) "".

(** [s.split(c)] for a one-character separator: never empty, one piece more
    than there are separators. *)
Fixpoint split (sep : ascii) (s : string) : list string :=
  match s with
  | EmptyString => [EmptyString]
  | String c s' =>
      if Ascii.eqb c sep then EmptyString :: split sep s'
      else match split sep s' with
           | [] => [String c EmptyString]
           | piece :: pieces => String c piece :: pieces
           end
  end.

(** [arr.pop()]: the last element, [undefined] on an empty array. *)
Definition pop (arr : list string) : option string := last arr.

(** [arr.join(sep)]. *)
Fixpoint join (sep : string) (arr : list string) : string :=
  match arr with
  | [] => ""
  | [x] => x
  | x :: rest => x +:+ sep +:+ join sep rest
  end.

(** [s.indexOf(c)] for a one-character needle: -1 when absent. *)
Fixpoint indexOfFrom (c : ascii) (s : string) (i : Z) : Z :=
  match s with
  | EmptyString => -1
  | String d s' => if Ascii.eqb d c then i else indexOfFrom c s' (i + 1)
  end.

Definition indexOf (c : ascii) (s : string) : Z := indexOfFrom c s 0.

(** [arr.indexOf(value)] on an array of strings: -1 when absent. *)
Fixpoint arrayIndexOfFrom (value : string) (arr : list string) (i : Z) : Z :=
  match arr with
  | [] => -1
  | x :: rest => if String.eqb x value then i else arrayIndexOfFrom value rest (i + 1)
  end.

Definition arrayIndexOf (value : string) (arr : list string) : Z :=
  arrayIndexOfFrom value arr 0.

(** [arr.filter(p)] where the callback also receives the index and the whole
    array. *)
Fixpoint filterFrom (p : string -> Z -> list string -> bool)
    (whole : list string) (arr : list string) (i : Z) : list string :=
  match arr with
  | [] => []
  | x :: rest =>
      if p x i whole then x :: filterFrom p whole rest (i + 1)
      else filterFrom p whole rest (i + 1)
  end.

Definition arrayFilter (p : string -> Z -> list string -> bool) (arr : list string) : list string :=
  filterFrom p arr arr 0.

(** ** Schema nodes *)

(** A parsed JSON value, as a field's [default] holds one.  Numbers are kept
    as integers: only whether a number is zero matters to the translator. *)
Inductive JsonValue : Type :=
| JNull
| JBool (b : bool)
| JNumber (n : Z)
| JString (s : string)
| JArray (items : list JsonValue)
| JObject (members : list (string * JsonValue)).

(** JavaScript's truthiness, which [||] and [!!] test. *)
Definition truthy (v : JsonValue) : bool :=
  match v with
  | JNull => false
  | JBool b => b
  | JNumber n => negb (n =? 0)%Z
  | JString s => negb (String.eqb s "")
  | JArray _ => true
  | JObject _ => true
  end.

Record EnumType : Type := mkEnum {
  ename : string;
  edoc : option string;
  symbols : list string
}.

(** Modelled from the spec: the schema node of [./model] (absent from the
    sources), one constructor per shape the type guards of [convertType]
    tell apart, in the order it tests them.  [TOther] stands for every node
    that passes none of the tests. *)
Inductive AvroType : Type :=
| TString (s : string)
| TUnion (types : list AvroType)
| TRecord (r : RecordType)
| TArray (items : AvroType)
| TMap (values : AvroType)
| TEnum (e : EnumType)
| TLogicalDecimal (precision scale : Z)
| TOther (shape : string)
with RecordType : Type :=
| mkRecord (name : string) (doc : option string) (fields : list Field)
with Field : Type :=
| mkField (name : string) (doc : option string) (default : option JsonValue) (type : AvroType).

Definition rname (r : RecordType) : string := let 'mkRecord n _ _ := r in n.
Definition rdoc (r : RecordType) : option string := let 'mkRecord _ d _ := r in d.
Definition rfields (r : RecordType) : list Field := let 'mkRecord _ _ fs := r in fs.

Definition fname (f : Field) : string := let 'mkField n _ _ _ := f in n.
Definition fdoc (f : Field) : option string := let 'mkField _ d _ _ := f in d.
Definition fdefault (f : Field) : option JsonValue := let 'mkField _ _ d _ := f in d.
Definition ftype (f : Field) : AvroType := let 'mkField _ _ _ t := f in t.

(** Modelled from the spec: [isOptional] of [./model] (absent from the
    sources): a type is optional when it is a union containing the [null]
    primitive, or is [null] itself. *)
Definition isNull (t : AvroType) : bool :=
  match t with
  | TString s => String.eqb s "null"
  | _ => false
  end.

Definition isOptional (t : AvroType) : bool :=
  match t with
  | TUnion types => existsb isNull types
  | _ => isNull t
  end.

(** Modelled from the spec: [createDocumentation] of [../utils] (absent from
    the sources): nothing for an absent doc string; otherwise a block comment
    whose lines are the words of the text, wrapped on blanks within [width],
    each behind the indentation and a continuation marker.  It is the
    instance the worked examples run with. *)
Fixpoint wrapWords (width : Z) (current : string) (words : list string) : list string :=
  match words with
  | [] => if String.eqb current "" then [] else [current]
  | w :: rest =>
      if String.eqb current "" then wrapWords width w rest
      else if (Z.of_nat (String.length current) + 1 + Z.of_nat (String.length w) <=? width)%Z
           then wrapWords width (current +:+ " " +:+ w) rest
           else current :: wrapWords width w rest
  end.

Definition specDocumentation (doc : option string) (width : Z) (indent : string) : string :=
  match doc with
  | None => ""
  | Some text =>
      indent +:+ "/**" +:+ LF
      +:+ String.concat ""
            (map (fun line => indent +:+ " * " +:+ line +:+ LF)
                 (wrapWords width "" (split " " text)))
      +:+ indent +:+ " */" +:+ LF
  end.

(** ** What a schema declares *)

(** Whether a record named [n] occurs in a schema node. *)
Fixpoint declares (n : string) (t : AvroType) : bool :=
  match t with
  | TUnion types => existsb (declares n) types
  | TRecord r => declaresRecord n r
  | TArray items => declares n items
  | TMap values => declares n values
  | _ => false
  end
with declaresRecord (n : string) (r : RecordType) : bool :=
  match r with
  | mkRecord name _ fields => String.eqb name n || existsb (declaresField n) fields
  end
with declaresField (n : string) (f : Field) : bool :=
  match f with
  | mkField _ _ _ type => declares n type
  end.

(** The nodes of unrecognized shape, in the order the translator meets them. *)
Fixpoint unrecognized (t : AvroType) : list AvroType :=
  match t with
  | TUnion types => flat_map unrecognized types
  | TRecord r => unrecognizedRecord r
  | TArray items => unrecognized items
  | TMap values => unrecognized values
  | TOther _ => [t]
  | _ => []
  end
with unrecognizedRecord (r : RecordType) : list AvroType :=
  match r with
  | mkRecord _ _ fields => flat_map unrecognizedField fields
  end
with unrecognizedField (f : Field) : list AvroType :=
  match f with
  | mkField _ _ _ type => unrecognized type
  end.

(** How many records and enums a schema node holds. *)
Fixpoint declarations (t : AvroType) : nat :=
  match t with
  | TUnion types => list_sum (map declarations types)
  | TRecord r => declarationsRecord r
  | TArray items => declarations items
  | TMap values => declarations values
  | TEnum _ => 1
  | _ => 0
  end
with declarationsRecord (r : RecordType) : nat :=
  match r with
  | mkRecord _ _ fields => S (list_sum (map declarationsField fields))
  end
with declarationsField (f : Field) : nat :=
  match f with
  | mkField _ _ _ type => declarations type
  end.

(** The schema with every node of unrecognized shape replaced by a node
    that is recognized (a logical decimal), to tell what such nodes change. *)
Fixpoint recognized (t : AvroType) : AvroType :=
  match t with
  | TUnion types => TUnion (map recognized types)
  | TRecord r => TRecord (recognizedRecord r)
  | TArray items => TArray (recognized items)
  | TMap values => TMap (recognized values)
  | TOther _ => TLogicalDecimal 0 0
  | _ => t
  end
with recognizedRecord (r : RecordType) : RecordType :=
  match r with
  | mkRecord name doc fields => mkRecord name doc (map recognizedField fields)
  end
with recognizedField (f : Field) : Field :=
  match f with
  | mkField name doc default type => mkField name doc default (recognized type)
  end.

Definition recognizedSchema (schema : RecordType + EnumType) : RecordType + EnumType :=
  match schema with
  | inl record => inl (recognizedRecord record)
  | inr enumType => inr enumType
  end.

(** ** The running program: module state, exceptions *)

(** [interfaces] is a plain object used as a dictionary, [buffer] the one
    array [avroToTypeScript] creates and hands by reference to every call, and
    [console] what [console.error] has been given. *)
Record Env : Type := mkEnv {
  interfaces : gmap string string;
  buffer : list string;
  console : list AvroType
}.

Inductive Outcome (A : Type) : Type :=
| Returns (a : A) (env : Env)
| Throws (error : string).

Arguments Returns {A} a env.
Arguments Throws {A} error.

Definition Js (A : Type) : Type := Env -> Outcome A.

Definition ret {A} (a : A) : Js A := fun env => Returns a env.

Definition bind {A B} (m : Js A) (k : A -> Js B) : Js B :=
  fun env =>
    match m env with
    | Returns a env' => k a env'
    | Throws e => Throws e
    end.

Notation "x <- m ;; k" := (bind m (fun x => k))
  (at level 100, m at next level, right associativity).
Notation "m ;;; k" := (bind m (fun _ => k))
  (at level 100, right associativity).

Fixpoint mapM {A B} (f : A -> Js B) (l : list A) : Js (list B) :=
  match l with
  | [] => ret []
  | x :: rest => y <- f x ;; ys <- mapM f rest ;; ret (y :: ys)
  end.

(** [interfaces.hasOwnProperty(n)].  The method is found on the prototype
    unless a key of that very name was stored in the object: the call then
    reaches a string and raises a TypeError. *)
Definition hasOwnProperty (n : string) : Js bool :=
  fun env =>
    match interfaces env !! "hasOwnProperty" with
    | Some _ => Throws "TypeError: interfaces.hasOwnProperty is not a function"
    | None => Returns (bool_decide (is_Some (interfaces env !! n))) env
    end.

(** [interfaces[n]], read only after [hasOwnProperty] said yes. *)
Definition getInterface (n : string) : Js string :=
  fun env => Returns (default n (interfaces env !! n)) env.

(** [interfaces[k] = v].  Assigning a string to [__proto__] runs the
    prototype's setter, which ignores it: no own key is created. *)
Definition setInterface (k v : string) : Js unit :=
  fun env =>
    Returns tt
      (if decide (k = "__proto__") then env
       else mkEnv (<[k := v]> (interfaces env)) (buffer env) (console env)).

(** [buffer.push(block)]. *)
Definition push (block : string) : Js unit :=
  fun env => Returns tt (mkEnv (interfaces env) (buffer env ++ [block]) (console env)).

(** [console.error('Cannot work out type', type)]. *)
Definition consoleError (type : AvroType) : Js unit :=
  fun env => Returns tt (mkEnv (interfaces env) (buffer env) (console env ++ [type])).

(** The expression [interfaces.hasOwnProperty(n) ? interfaces[n] : n], which
    the translator writes out at each of its four lookups. *)
Definition resolve (n : string) : Js string :=
  own <- hasOwnProperty n ;;
  if own then getInterface n else ret n.

(** The table can be consulted: no key hides the [hasOwnProperty] method. *)
Definition plain (env : Env) : Prop := interfaces env !! "hasOwnProperty" = None.

(** What a lookup yields in a table that can be consulted. *)
Definition resolved (table : gmap string string) (n : string) : string :=
  default n (table !! n).

(** ** Inputs of the worked examples *)

(** [["string", "string", "null"]] *)
Definition stringStringNull : AvroType :=
  TUnion [TString "string"; TString "string"; TString "null"].

Definition emptyEnv : Env := mkEnv ∅ [] [].

(** [{name: "count", type: ["null", "int"], default: 0}] *)
Definition countField : Field :=
  mkField "count" None (Some (JNumber 0)) (TUnion [TString "null"; TString "int"]).

(** [{type: "record", name: "User", fields: []}], without and with a
    namespace in its name. *)
Definition user : RecordType := mkRecord "User" None [].
Definition acmeUser : RecordType := mkRecord "com.acme.User" None [].

(** [{type: "enum", name: "Color", symbols: ["RED", "GREEN"]}], without and
    with a namespace in its name. *)
Definition color : EnumType := mkEnum "Color" None ["RED"; "GREEN"].
Definition acmeColor : EnumType := mkEnum "com.acme.Color" None ["RED"; "GREEN"].

(** A record [Address] nested as the type of a field of [a.Person], of
    [b.Person] and of [Company]. *)
Definition address : RecordType :=
  mkRecord "Address" None [mkField "street" None None (TString "string")].
Definition personA : RecordType :=
  mkRecord "a.Person" None [mkField "home" None None (TRecord address)].
Definition personB : RecordType :=
  mkRecord "b.Person" None [mkField "home" None None (TRecord address)].
Definition company : RecordType :=
  mkRecord "Company" None [mkField "seat" None None (TRecord address)].

(** [Order], with a field whose type is an array of the record [Item]. *)
Definition item : RecordType := mkRecord "Item" None [].
Definition itemsField : Field := mkField "items" None None (TArray (TRecord item)).
Definition order : RecordType := mkRecord "Order" None [itemsField].

(** [{name: "tags", type: {type: "array", items: "null"}, default: []}] *)
Definition tagsField : Field :=
  mkField "tags" None (Some (JArray [])) (TArray (TString "null")).

(** [["A", "B"]] *)
Definition unionAB : AvroType := TUnion [TString "A"; TString "B"].

(** [Reading], whose first field has a type of no recognized shape. *)
Definition reading : RecordType :=
  mkRecord "Reading" None
    [mkField "id" None None (TOther "fixed"); mkField "value" None None (TString "double")].

(** [Registry], with a field whose type is a record named
    [hasOwnProperty]. *)
Definition registry : RecordType :=
  mkRecord "Registry" None
    [mkField "lookup" None None (TRecord (mkRecord "hasOwnProperty" None []))].

(** A record named [number], and a field of type [double]. *)
Definition numberRecord : RecordType := mkRecord "number" None [].
Definition valueField : Field := mkField "value" None None (TString "double").

(** What [emptyEnv] has become after each of these records and enums. *)
Definition userEnv : Env :=
  mkEnv {["User" := "IUser"]}
    ["export interface IUser {" +:+ LF +:+ LF +:+ "}" +:+ LF] [].

Definition acmeUserEnv : Env :=
  mkEnv {["com.acme.User" := "IUser"]}
    ["export interface IUser {" +:+ LF +:+ LF +:+ "}" +:+ LF] [].

Definition personAddressEnv : Env :=
  mkEnv {["Address" := "IPersonAddress"]}
    ["export interface IPersonAddress {" +:+ LF +:+ TAB +:+ "street: string;" +:+ LF
     +:+ "}" +:+ LF] [].

(** The text either [Person] is translated to. *)
Definition personText : string :=
  "export interface IPersonAddress {" +:+ LF +:+ TAB +:+ "street: string;" +:+ LF
  +:+ "}" +:+ LF +:+ LF
  +:+ "export interface IPerson {" +:+ LF +:+ TAB +:+ "home: IPersonAddress;" +:+ LF
  +:+ "}" +:+ LF.

Definition companyAddressEnv : Env :=
  mkEnv {["Address" := "ICompanyAddress"]}
    ["export interface ICompanyAddress {" +:+ LF +:+ TAB +:+ "street: string;" +:+ LF
     +:+ "}" +:+ LF] [].

Definition acmeColorEnv : Env :=
  mkEnv ∅
    ["export enum com.acme.Color {" +:+ LF +:+ TAB +:+ "RED = 'RED'," +:+ LF
     +:+ TAB +:+ "GREEN = 'GREEN'" +:+ LF +:+ "}" +:+ LF] [].

Definition itemEnv : Env :=
  mkEnv {["Item" := "IItem"]}
    ["export interface IItem {" +:+ LF +:+ LF +:+ "}" +:+ LF] [].

Definition numberEnv : Env :=
  mkEnv {["number" := "Inumber"]}
    ["export interface Inumber {" +:+ LF +:+ LF +:+ "}" +:+ LF] [].

(** ** The earlier translator

    The sources hold a second, earlier [index.ts] (no [hasDefaultValue], the
    root record handed down instead of the parent).  Its [convertEnum]
    differs: an enum below a root record is named after both.
    [createDocumentation] is a parameter, as for the translator. *)
Module IndexTs.

Definition convertEnum (createDocumentation : option string -> Z -> string -> string)
    (enumType : EnumType) (rootRecordType : option RecordType) : Js string :=
  let doc := createDocumentation (edoc enumType) 80 "" in
  let enumName :=
    match rootRecordType with
    | Some root => rname root +:+ ename enumType
    | None => ename enumType
    end in
  let enumDef :=
    doc +:+ "export enum " +:+ enumName +:+ " {" +:+ LF
    +:+ TAB +:+ join ("," +:+ LF +:+ TAB)
                  (map (fun s => s +:+ " = '" +:+ s +:+ "'") (symbols enumType))
    +:+ LF +:+ "}" +:+ LF in
  bind (push enumDef) (fun _ => ret enumName).

End IndexTs.

(** ** The translator *)

Section Translator.

(** [createDocumentation] of [../utils] is not part of the sources: the
    translator is taken over any implementation of it. *)
Variable createDocumentation : option string -> Z -> string -> string.

(** Create documentation, if it exists. *)
Definition document (doc : option string) (indent : string) : string :=
  createDocumentation doc 80 indent.

Definition stripNamespace (name : string) : string :=
  default "" (pop (split "." name)).

(** Convert a primitive type from avro to TypeScript. *)
Definition convertPrimitive (avroType : string) (hasDefaultValue : bool) : Js string :=
  if String.eqb avroType "long" || String.eqb avroType "int"
     || String.eqb avroType "double" || String.eqb avroType "float"
  then ret "number"
  else if String.eqb avroType "bytes" then ret "Buffer"
  else if String.eqb avroType "null" then
    if hasDefaultValue then ret "null" else ret "null | undefined"
  else if String.eqb avroType "boolean" then ret "boolean"
  else
    let cleanName := stripNamespace avroType in
    resolve cleanName.

(** Convert an Avro Enum type. Return the name, but add the definition to
    the file. *)
Definition convertEnum (enumType : EnumType) : Js string :=
  let doc := document (edoc enumType) "" in
  let enumDef :=
    doc +:+ "export enum " +:+ ename enumType +:+ " {" +:+ LF
    +:+ TAB +:+ join ("," +:+ LF +:+ TAB)
                  (map (fun s => s +:+ " = '" +:+ s +:+ "'") (symbols enumType))
    +:+ LF +:+ "}" +:+ LF in
  push enumDef ;;;
  ret (ename enumType).

Definition isUnique (value : string) (index : Z) (arr : list string) : bool :=
  (arrayIndexOf value arr =? index)%Z.

Definition isUnion (s : string) : bool := (0 <=? indexOf "|" s)%Z.

(** [!!(field.default || field.default === null)]: an absent key is
    [undefined]. *)
Definition hasDefault (default : option JsonValue) : bool :=
  match default with
  | None => false
  | Some JNull => true
  | Some v => truthy v
  end.

Definition interfaceName (recordType : RecordType) (parentRecordType : option RecordType) : string :=
  match parentRecordType with
  | Some parent => "I" +:+ stripNamespace (rname parent) +:+ stripNamespace (rname recordType)
  | None => "I" +:+ stripNamespace (rname recordType)
  end.

Definition interfaceDef (doc cleanName : string) (lines : list string) : string :=
  doc +:+ "export interface " +:+ cleanName +:+ " {" +:+ LF
  +:+ join LF lines +:+ LF +:+ "}" +:+ LF.

Definition fieldLine (doc name : string) (optional : bool) (replacedType : string) : string :=
  doc +:+ TAB +:+ name +:+ (if optional then "?" else "") +:+ ": " +:+ replacedType +:+ ";".

Fixpoint convertType (type : AvroType) (hasDefaultValue : bool)
    (parentRecordType : option RecordType) {struct type} : Js string :=
  match type with
  | TString s => convertPrimitive s hasDefaultValue
  | TUnion types =>
      names <- (fix members (ts : list AvroType) : Js (list string) :=
                  match ts with
                  | [] => ret []
                  | t :: rest =>
                      n <- (r <- convertType t hasDefaultValue None ;; ret (stripNamespace r)) ;;
                      ns <- members rest ;;
                      ret (n :: ns)
                  end) types ;;
      resolved <- mapM resolve names ;;
      ret (join " | " (arrayFilter isUnique resolved))
  | TRecord r => convertRecord r parentRecordType
  | TArray items =>
      r <- convertType items hasDefaultValue None ;;
      let name := stripNamespace r in
      properName <- resolve name ;;
      ret (if isUnion properName then "Array<" +:+ properName +:+ ">"
           else properName +:+ "[]")
  | TMap values =>
      r <- convertType values hasDefaultValue None ;;
      ret ("{ [key: string]: " +:+ r +:+ " }")
  | TEnum e => convertEnum e
  | TLogicalDecimal _ _ => ret "number"
  | TOther _ => consoleError type ;;; ret "UNKNOWN"
  end
with convertRecord (recordType : RecordType) (parentRecordType : option RecordType)
    {struct recordType} : Js string :=
  match recordType with
  | mkRecord name rdoc fields =>
      let doc := document rdoc "" in
      let cleanName := interfaceName recordType parentRecordType in
      lines <- (fix declarations (fs : list Field) : Js (list string) :=
                  match fs with
                  | [] => ret []
                  | field :: rest =>
                      l <- convertFieldDec field (Some recordType) ;;
                      ls <- declarations rest ;;
                      ret (l :: ls)
                  end) fields ;;
      push (interfaceDef doc cleanName lines) ;;;
      setInterface name cleanName ;;;
      ret cleanName
  end
with convertFieldDec (field : Field) (parentRecordType : option RecordType)
    {struct field} : Js string :=
  match field with
  | mkField name fdoc default ftype =>
      let doc := document fdoc TAB in
      let hasDefaultValue := hasDefault default in
      type <- convertType ftype hasDefaultValue parentRecordType ;;
      replacedType <- resolve type ;;
      ret (fieldLine doc name (isOptional ftype && negb hasDefaultValue) replacedType)
  end.

(** Converts an Avro record type to a TypeScript file.  [output] is a fresh
    array; [interfaces] is the module's and outlives the call. *)
Definition avroToTypeScript (recordType : RecordType + EnumType) : Js string :=
  fun env =>
    let output := [] in
    bind (match recordType with
          | inr enumType => convertEnum enumType
          | inl record => convertRecord record None
          end)
         (fun _ env' => Returns (join LF (buffer env')) env')
         (mkEnv (interfaces env) output (console env)).

(** The union row of the translation table in the spec's words, to compare
    with the code: the members' renderings, each namespace-stripped and
    resolved through the table, duplicates removed keeping the first
    occurrence of each, joined with the union separator. *)
Fixpoint keepFirst (seen : list string) (names : list string) : list string :=
  match names with
  | [] => []
  | n :: rest =>
      if bool_decide (n ∈ seen) then keepFirst seen rest
      else n :: keepFirst (seen ++ [n]) rest
  end.

Definition unionOf (table : gmap string string) (rendered : list string) : string :=
  join " | " (keepFirst [] (map (resolved table) (map stripNamespace rendered))).

(** None of [names] is a key of the table. *)
Definition unregistered (env : Env) (names : list string) : Prop :=
  Forall (fun n => interfaces env !! n = None) names.

(** The top-level node [avroToTypeScript] is given, as a schema node. *)
Definition topLevel (schema : RecordType + EnumType) : AvroType :=
  match schema with
  | inl record => TRecord record
  | inr enumType => TEnum enumType
  end.

(** The strings [convertPrimitive] has a case for. *)
Definition primitiveNames : list string :=
  ["long"; "int"; "double"; "float"; "bytes"; "null"; "boolean"].

(** ** Predicates on runs *)

(** [runs m env log blocks]: from [env] the computation returns, leaves the
    table consultable, reports exactly [log] and appends [blocks] blocks. *)
Definition runs {A} (m : Js A) (env : Env) (log : list AvroType) (blocks : nat) : Prop :=
  exists a env', m env = Returns a env' /\ plain env'
    /\ console env' = console env ++ log
    /\ length (buffer env') = (length (buffer env) + blocks)%nat.

(** [keeps n m]: a run of [m] that returns leaves the entry of [n] in the
    table as it was. *)
Definition keeps {A} (n : string) (m : Js A) : Prop :=
  forall env a env', m env = Returns a env' -> interfaces env' !! n = interfaces env !! n.

(** [alike env1 env2]: the same table and as many blocks.  [sameFate R o1 o2]:
    two runs both raise, or both return, in states that are alike, values
    related by [R]. *)
Definition alike (env1 env2 : Env) : Prop :=
  interfaces env1 = interfaces env2 /\ length (buffer env1) = length (buffer env2).

Definition sameFate {A B} (R : A -> B -> Prop) (o1 : Outcome A) (o2 : Outcome B) : Prop :=
  match o1, o2 with
  | Returns a env1, Returns b env2 => R a b /\ alike env1 env2
  | Throws _, Throws _ => True
  | _, _ => False
  end.

Definition anyValue {A B} (a : A) (b : B) : Prop := True.

Definition sameLength {A B} (l1 : list A) (l2 : list B) : Prop := length l1 = length l2.

Definition sameName (p1 p2 : option RecordType) : Prop :=
  option_map rname p1 = option_map rname p2.

(** ** Reasoning about the program *)

Lemma convertPrimitive_reference avroType hasDefaultValue :
  avroType ∉ primitiveNames ->
  convertPrimitive avroType hasDefaultValue = resolve (stripNamespace avroType).
Proof.
  intros Hn. unfold convertPrimitive.
  repeat (match goal with
          | |- context [String.eqb avroType ?k] =>
              destruct (String.eqb_spec avroType k) as [->|_];
              [exfalso; apply Hn; unfold primitiveNames; repeat constructor|]
          end; simpl).
  reflexivity.
Qed.

Lemma bind_returns {A B} (m : Js A) (k : A -> Js B) env b env' :
  bind m k env = Returns b env' <->
  exists a env1, m env = Returns a env1 /\ k a env1 = Returns b env'.
Proof.
  unfold bind. split.
  - destruct (m env) as [a env1|e]; [eauto | discriminate].
  - intros (a & env1 & -> & Hk). exact Hk.
Qed.

Lemma bind_step {A B} (m : Js A) (k : A -> Js B) env a env1 :
  m env = Returns a env1 -> bind m k env = k a env1.
Proof. unfold bind. intros ->. reflexivity. Qed.

Lemma resolve_plain n env :
  plain env -> resolve n env = Returns (resolved (interfaces env) n) env.
Proof.
  unfold plain, resolve, bind, hasOwnProperty, resolved. intros ->.
  case_bool_decide as Hown; unfold getInterface, ret.
  - reflexivity.
  - destruct (interfaces env !! n) eqn:E; [|reflexivity].
    exfalso. apply Hown. eauto.
Qed.

Lemma mapM_resolve_plain names env :
  plain env ->
  mapM resolve names env = Returns (map (resolved (interfaces env)) names) env.
Proof.
  intros Hp. induction names as [|n names IH]; simpl; [reflexivity|].
  rewrite (bind_step _ _ _ _ _ (resolve_plain n env Hp)).
  rewrite (bind_step _ _ _ _ _ IH). reflexivity.
Qed.

(** The loops inside [convertType] and [convertRecord] are [Array.map]. *)
Lemma convertType_union types hasDefaultValue parentRecordType :
  convertType (TUnion types) hasDefaultValue parentRecordType =
  (names <- mapM (fun t => r <- convertType t hasDefaultValue None ;; ret (stripNamespace r)) types ;;
   rs <- mapM resolve names ;;
   ret (join " | " (arrayFilter isUnique rs))).
Proof.
  simpl. f_equal.
  induction types as [|t types IH]; simpl; [reflexivity|].
  rewrite IH. reflexivity.
Qed.

Lemma convertRecord_unfold recordType parentRecordType :
  convertRecord recordType parentRecordType =
  (lines <- mapM (fun field => convertFieldDec field (Some recordType)) (rfields recordType) ;;
   push (interfaceDef (document (rdoc recordType) "")
           (interfaceName recordType parentRecordType) lines) ;;;
   setInterface (rname recordType) (interfaceName recordType parentRecordType) ;;;
   ret (interfaceName recordType parentRecordType)).
Proof.
  destruct recordType as [name doc fields]. simpl. f_equal.
  generalize (Some (mkRecord name doc fields)). intros parent.
  induction fields as [|f fields IH]; simpl; [reflexivity|].
  rewrite IH. reflexivity.
Qed.

Lemma convertFieldDec_unfold field parentRecordType :
  convertFieldDec field parentRecordType =
  (type <- convertType (ftype field) (hasDefault (fdefault field)) parentRecordType ;;
   replacedType <- resolve type ;;
   ret (fieldLine (document (fdoc field) TAB) (fname field)
          (isOptional (ftype field) && negb (hasDefault (fdefault field)))
          replacedType)).
Proof. destruct field. reflexivity. Qed.

(** Induction over a schema: a union by its members, a record by its
    fields, a field by its type. *)
Section SchemaInduction.
Variables (P : AvroType -> Prop) (Q : RecordType -> Prop) (R : Field -> Prop).
Hypothesis HString : forall s, P (TString s).
Hypothesis HUnion : forall types, Forall P types -> P (TUnion types).
Hypothesis HRecord : forall r, Q r -> P (TRecord r).
Hypothesis HArray : forall items, P items -> P (TArray items).
Hypothesis HMap : forall values, P values -> P (TMap values).
Hypothesis HEnum : forall e, P (TEnum e).
Hypothesis HDecimal : forall precision scale, P (TLogicalDecimal precision scale).
Hypothesis HOther : forall shape, P (TOther shape).
Hypothesis HmkRecord : forall name doc fields, Forall R fields -> Q (mkRecord name doc fields).
Hypothesis HmkField : forall name doc default type, P type -> R (mkField name doc default type).

Fixpoint schema_ind (t : AvroType) : P t :=
  match t with
  | TString s => HString s
  | TUnion types =>
      HUnion types
        ((fix all (l : list AvroType) : Forall P l :=
            match l with
            | [] => @List.Forall_nil _ P
            | x :: l' => @List.Forall_cons _ P x l' (schema_ind x) (all l')
            end) types)
  | TRecord r => HRecord r (record_ind r)
  | TArray items => HArray items (schema_ind items)
  | TMap values => HMap values (schema_ind values)
  | TEnum e => HEnum e
  | TLogicalDecimal precision scale => HDecimal precision scale
  | TOther shape => HOther shape
  end
with record_ind (r : RecordType) : Q r :=
  match r with
  | mkRecord name doc fields =>
      HmkRecord name doc fields
        ((fix all (l : list Field) : Forall R l :=
            match l with
            | [] => @List.Forall_nil _ R
            | x :: l' => @List.Forall_cons _ R x l' (field_ind x) (all l')
            end) fields)
  end
with field_ind (f : Field) : R f :=
  match f with
  | mkField name doc default type => HmkField name doc default type (schema_ind type)
  end.
End SchemaInduction.

Lemma runs_ret {A} (a : A) env : plain env -> runs (ret a) env [] 0.
Proof.
  intros Hp. exists a, env. split; [reflexivity|].
  split; [assumption|]. split; [symmetry; apply app_nil_r | lia].
Qed.

Lemma runs_bind {A B} (m : Js A) (k : A -> Js B) env log1 blocks1 log2 blocks2 :
  runs m env log1 blocks1 ->
  (forall a env1, m env = Returns a env1 -> runs (k a) env1 log2 blocks2) ->
  runs (bind m k) env (log1 ++ log2) (blocks1 + blocks2).
Proof.
  intros (a & env1 & Hm & _ & Hc1 & Hb1) Hk.
  destruct (Hk a env1 Hm) as (b & env2 & Hk2 & Hp2 & Hc2 & Hb2).
  exists b, env2. rewrite (bind_step _ _ _ _ _ Hm).
  repeat split; try assumption.
  - rewrite Hc2, Hc1, app_assoc. reflexivity.
  - lia.
Qed.

Lemma runs_plain {A} (m : Js A) env log blocks a env1 :
  runs m env log blocks -> m env = Returns a env1 -> plain env1.
Proof.
  intros (a' & env' & Hm & Hp & _) Hr. rewrite Hm in Hr.
  injection Hr as _ <-. exact Hp.
Qed.

Lemma runs_resolve n env : plain env -> runs (resolve n) env [] 0.
Proof.
  intros Hp. exists (resolved (interfaces env) n), env.
  split; [apply resolve_plain; assumption|].
  split; [assumption|]. split; [symmetry; apply app_nil_r | lia].
Qed.

Lemma runs_mapM {A B} (f : A -> Js B) (bad : A -> bool) (log : A -> list AvroType)
    (blocks : A -> nat) (l : list A) :
  Forall (fun x => forall env, bad x = false -> plain env -> runs (f x) env (log x) (blocks x)) l ->
  forall env, existsb bad l = false -> plain env ->
    runs (mapM f l) env (flat_map log l) (list_sum (map blocks l)).
Proof.
  induction 1 as [|x l Hx _ IH]; intros env Hbad Hp; simpl.
  - apply runs_ret, Hp.
  - simpl in Hbad. apply orb_false_elim in Hbad as [Hbx Hbl].
    apply runs_bind; [apply Hx; assumption|].
    intros y env1 Hy.
    assert (Hp1 : plain env1) by (eapply runs_plain; [apply Hx|]; eassumption).
    rewrite <- (app_nil_r (flat_map log l)), <- (Nat.add_0_r (list_sum (map blocks l))).
    apply runs_bind; [apply IH; assumption|].
    intros ys env2 Hys. apply runs_ret.
    eapply runs_plain; [apply IH|]; eassumption.
Qed.

Lemma runs_eq {A} (m : Js A) env log blocks log' blocks' :
  runs m env log blocks -> log = log' -> blocks = blocks' -> runs m env log' blocks'.
Proof. intros H <- <-. exact H. Qed.

Lemma runs_push block env : plain env -> runs (push block) env [] 1.
Proof.
  intros Hp. exists tt. eexists. split; [reflexivity|].
  split; [exact Hp|]. simpl. split.
  - rewrite app_nil_r. reflexivity.
  - rewrite length_app. simpl. lia.
Qed.

Lemma runs_consoleError type env : plain env -> runs (consoleError type) env [type] 0.
Proof.
  intros Hp. exists tt. eexists. split; [reflexivity|].
  split; [exact Hp|]. simpl. split; [reflexivity | lia].
Qed.

Lemma runs_setInterface k v env :
  String.eqb k "hasOwnProperty" = false -> plain env -> runs (setInterface k v) env [] 0.
Proof.
  intros Hk Hp. exists tt. eexists. split; [reflexivity|].
  apply String.eqb_neq in Hk.
  case_decide; (split; [|split; [symmetry; apply app_nil_r | simpl; lia]]).
  - exact Hp.
  - unfold plain. simpl. rewrite lookup_insert_ne; assumption.
Qed.

Lemma runs_mapM_resolve names env : plain env -> runs (mapM resolve names) env [] 0.
Proof.
  intros Hp. eexists _, env.
  split; [apply mapM_resolve_plain; assumption|].
  split; [assumption|]. split; [symmetry; apply app_nil_r | lia].
Qed.

Lemma runs_convertPrimitive avroType hasDefaultValue env :
  plain env -> runs (convertPrimitive avroType hasDefaultValue) env [] 0.
Proof.
  intros Hp. unfold convertPrimitive.
  repeat (match goal with |- context [if ?b then _ else _] => destruct b end;
          try (apply runs_ret; assumption)).
  apply runs_resolve. assumption.
Qed.

Lemma runs_convertEnum enumType env : plain env -> runs (convertEnum enumType) env [] 1.
Proof.
  intros Hp. unfold convertEnum.
  eapply runs_eq; [apply runs_bind; [apply runs_push; assumption|] | reflexivity | reflexivity].
  intros u env1 H1. apply runs_ret.
  eapply runs_plain; [apply runs_push|]; eassumption.
Qed.

(** Chains a step that runs with the steps after it. *)
Ltac runs_then H :=
  eapply runs_eq;
  [ apply runs_bind; [ H | let a := fresh "a" in let env' := fresh "env" in
                           let Hret := fresh "Hret" in
                           intros a env' Hret;
                           assert (plain env') by (eapply runs_plain; [|eassumption]; H) ]
  | try reflexivity | try reflexivity ].

(** A schema that declares no record named [hasOwnProperty], translated from
    a table that can be consulted, is translated to the end: every
    unrecognized node is reported, in order, and every record and enum gets
    its block. *)
Lemma convertType_runs type :
  forall hasDefaultValue parentRecordType env,
    declares "hasOwnProperty" type = false -> plain env ->
    runs (convertType type hasDefaultValue parentRecordType) env
      (unrecognized type) (declarations type).
Proof.
  apply (schema_ind
    (fun t => forall hd p env, declares "hasOwnProperty" t = false -> plain env ->
       runs (convertType t hd p) env (unrecognized t) (declarations t))
    (fun r => forall p env, declaresRecord "hasOwnProperty" r = false -> plain env ->
       runs (convertRecord r p) env (unrecognizedRecord r) (declarationsRecord r))
    (fun f => forall p env, declaresField "hasOwnProperty" f = false -> plain env ->
       runs (convertFieldDec f p) env (unrecognizedField f) (declarationsField f))).
  - intros s hd p env _ Hp. apply runs_convertPrimitive, Hp.
  - intros types IH hd p env Hd Hp. rewrite convertType_union.
    simpl in Hd.
    runs_then ltac:(apply (runs_mapM _ (declares "hasOwnProperty") unrecognized declarations);
                    [ eapply Forall_impl; [exact IH|]; cbv beta;
                      intros t Ht e0 Hd0 Hp0;
                      eapply runs_eq;
                      [ apply runs_bind; [apply Ht; assumption|];
                        intros r e1 Hr; apply runs_ret;
                        eapply runs_plain; [apply Ht|]; eassumption
                      | apply app_nil_r | apply Nat.add_0_r ]
                    | assumption | assumption ]).
    + runs_then ltac:(apply runs_mapM_resolve; assumption).
      apply runs_ret. assumption.
    + simpl. rewrite app_nil_r. reflexivity.
    + simpl. lia.
  - intros r IH hd p env Hd Hp. simpl. apply IH; assumption.
  - intros items IH hd p env Hd Hp. simpl in *.
    runs_then ltac:(apply IH; assumption).
    + runs_then ltac:(apply runs_resolve; assumption). apply runs_ret. assumption.
    + simpl. rewrite app_nil_r. reflexivity.
    + lia.
  - intros values IH hd p env Hd Hp. simpl in *.
    runs_then ltac:(apply IH; assumption).
    + apply runs_ret. assumption.
    + rewrite app_nil_r. reflexivity.
    + lia.
  - intros e hd p env _ Hp. simpl. apply runs_convertEnum, Hp.
  - intros precision scale hd p env _ Hp. simpl. apply runs_ret, Hp.
  - intros shape hd p env _ Hp. simpl.
    runs_then ltac:(apply runs_consoleError; assumption).
    apply runs_ret. assumption.
  - intros name doc fields IH p env Hd Hp. rewrite convertRecord_unfold.
    simpl in Hd. apply orb_false_elim in Hd as [Hname Hfields].
    runs_then ltac:(apply (runs_mapM _ (declaresField "hasOwnProperty")
                            unrecognizedField declarationsField);
                    [ eapply Forall_impl; [exact IH|]; cbv beta;
                      intros f Hf e0 Hd0 Hp0; apply Hf; assumption
                    | assumption | assumption ]).
    + runs_then ltac:(apply runs_push; assumption).
      runs_then ltac:(apply runs_setInterface; assumption).
      apply runs_ret. assumption.
    + simpl. rewrite app_nil_r. reflexivity.
    + simpl. lia.
  - intros name doc default ty IH p env Hd Hp. rewrite convertFieldDec_unfold.
    simpl in *.
    runs_then ltac:(apply IH; assumption).
    + runs_then ltac:(apply runs_resolve; assumption). apply runs_ret. assumption.
    + simpl. rewrite app_nil_r. reflexivity.
    + lia.
Qed.

(** What a run of [convertRecord] that returns has done. *)
Lemma convertRecord_returns recordType parentRecordType env id env' :
  convertRecord recordType parentRecordType env = Returns id env' ->
  id = interfaceName recordType parentRecordType /\
  exists lines env1,
    mapM (fun field => convertFieldDec field (Some recordType)) (rfields recordType) env
      = Returns lines env1 /\
    buffer env' = buffer env1 ++ [interfaceDef (document (rdoc recordType) "") id lines] /\
    console env' = console env1 /\
    interfaces env' =
      (if decide (rname recordType = "__proto__") then interfaces env1
       else <[rname recordType := id]> (interfaces env1)).
Proof.
  rewrite convertRecord_unfold. intros H.
  apply bind_returns in H as (lines & env1 & Hlines & H).
  unfold bind, push, setInterface, ret in H.
  case_decide; injection H as <- <-; (split; [reflexivity|]);
    exists lines, env1; simpl; auto.
Qed.

Lemma convertRecord_registers recordType parentRecordType env id env' :
  convertRecord recordType parentRecordType env = Returns id env' ->
  rname recordType <> "__proto__" ->
  interfaces env' !! rname recordType = Some id.
Proof.
  intros H Hname. apply convertRecord_returns in H as (_ & lines & env1 & _ & _ & _ & ->).
  rewrite decide_False by assumption. apply lookup_insert_eq.
Qed.

Lemma convertEnum_returns enumType env :
  convertEnum enumType env =
  Returns (ename enumType)
    (mkEnv (interfaces env)
       (buffer env ++
          [document (edoc enumType) "" +:+ "export enum " +:+ ename enumType +:+ " {" +:+ LF
           +:+ TAB +:+ join ("," +:+ LF +:+ TAB)
                         (map (fun s => s +:+ " = '" +:+ s +:+ "'") (symbols enumType))
           +:+ LF +:+ "}" +:+ LF])
       (console env)).
Proof. reflexivity. Qed.

Lemma convertRecord_runs recordType parentRecordType env :
  declaresRecord "hasOwnProperty" recordType = false -> plain env ->
  runs (convertRecord recordType parentRecordType) env
    (unrecognizedRecord recordType) (declarationsRecord recordType).
Proof. exact (convertType_runs (TRecord recordType) false parentRecordType env). Qed.

(** Strings as lists of characters, to cancel a common suffix. *)
Lemma chars_app (a b : string) :
  list_ascii_of_string (a +:+ b) = list_ascii_of_string a ++ list_ascii_of_string b.
Proof. induction a as [|c a IH]; simpl; [reflexivity | rewrite IH; reflexivity]. Qed.

Lemma chars_inj (a b : string) : list_ascii_of_string a = list_ascii_of_string b -> a = b.
Proof.
  intros H. rewrite <- (string_of_list_ascii_of_string a), <- (string_of_list_ascii_of_string b).
  rewrite H. reflexivity.
Qed.

Lemma append_inv_tail (a b suffix : string) : a +:+ suffix = b +:+ suffix -> a = b.
Proof.
  intros H. apply chars_inj. apply (f_equal list_ascii_of_string) in H.
  rewrite !chars_app in H. eapply app_inv_tail. exact H.
Qed.

Lemma append_inv_head (prefix a b : string) : prefix +:+ a = prefix +:+ b -> a = b.
Proof. induction prefix as [|c prefix IH]; simpl; intros H; [exact H | injection H as H; auto]. Qed.

(** The optional marker of a field line, whatever the field. *)
Lemma convertFieldDec_returns field parentRecordType env line env' :
  convertFieldDec field parentRecordType env = Returns line env' ->
  exists type env1 replacedType,
    convertType (ftype field) (hasDefault (fdefault field)) parentRecordType env
      = Returns type env1 /\
    resolve type env1 = Returns replacedType env' /\
    line = fieldLine (document (fdoc field) TAB) (fname field)
             (isOptional (ftype field) && negb (hasDefault (fdefault field)))
             replacedType.
Proof.
  rewrite convertFieldDec_unfold. intros H.
  apply bind_returns in H as (type & env1 & Htype & H).
  apply bind_returns in H as (replacedType & env2 & Hres & H).
  unfold ret in H. injection H as <- <-. eauto 6.
Qed.

(** C3, as the code has it.  A record translated with a parent is named
    [I], the parent's stripped name, its own stripped name; without one, [I]
    and its own stripped name; the block it appends carries that name.  A
    record hands itself as the parent to each of its fields, a field hands
    its parent to a record that is its type, and the entry point hands none.
    Two nested records of one name get distinct names when the stripped
    names of their parents differ. *)
Theorem record_identifier :
  (forall recordType parentRecordType env id env',
     convertRecord recordType parentRecordType env = Returns id env' ->
     id = match parentRecordType with
          | Some parent =>
              "I" +:+ stripNamespace (rname parent) +:+ stripNamespace (rname recordType)
          | None => "I" +:+ stripNamespace (rname recordType)
          end /\
     exists lines,
       last (buffer env') = Some (interfaceDef (document (rdoc recordType) "") id lines)) /\
  (forall recordType parentRecordType env,
     declaresRecord "hasOwnProperty" recordType = false -> plain env ->
     exists env',
       convertRecord recordType parentRecordType env
         = Returns (interfaceName recordType parentRecordType) env') /\
  (forall recordType parentRecordType,
     convertRecord recordType parentRecordType =
     (lines <- mapM (fun field => convertFieldDec field (Some recordType)) (rfields recordType) ;;
      push (interfaceDef (document (rdoc recordType) "")
              (interfaceName recordType parentRecordType) lines) ;;;
      setInterface (rname recordType) (interfaceName recordType parentRecordType) ;;;
      ret (interfaceName recordType parentRecordType))) /\
  (forall field parent nested,
     ftype field = TRecord nested ->
     convertFieldDec field (Some parent) =
     (type <- convertRecord nested (Some parent) ;;
      replacedType <- resolve type ;;
      ret (fieldLine (document (fdoc field) TAB) (fname field)
             (isOptional (ftype field) && negb (hasDefault (fdefault field)))
             replacedType))) /\
  (forall record env,
     avroToTypeScript (inl record) env =
     bind (convertRecord record None)
       (fun _ env' => Returns (join LF (buffer env')) env')
       (mkEnv (interfaces env) [] (console env))) /\
  (forall parent1 parent2 nested1 nested2,
     rname nested1 = rname nested2 ->
     stripNamespace (rname parent1) <> stripNamespace (rname parent2) ->
     interfaceName nested1 (Some parent1) <> interfaceName nested2 (Some parent2)).
Proof.
  repeat apply conj.
  - intros r p env id env' Hrun.
    apply convertRecord_returns in Hrun as (-> & lines & env1 & _ & Hbuf & _).
    split; [destruct p; reflexivity|].
    exists lines. rewrite Hbuf. apply last_snoc.
  - intros r p env Hd Hp.
    destruct (convertRecord_runs r p env Hd Hp) as (id & env' & Hrun & _).
    exists env'. rewrite Hrun.
    apply convertRecord_returns in Hrun as (-> & _). reflexivity.
  - apply convertRecord_unfold.
  - intros field parent nested Htype. rewrite convertFieldDec_unfold, Htype. reflexivity.
  - reflexivity.
  - intros p1 p2 n1 n2 Hsame Hdiff Heq. apply Hdiff.
    unfold interfaceName in Heq. rewrite Hsame in Heq.
    apply append_inv_head in Heq. apply append_inv_tail in Heq. exact Heq.
Qed.

Lemma mapM_post {A B C} (f : A -> Js B) (g : B -> C) (l : list A) env :
  mapM (fun x => y <- f x ;; ret (g y)) l env = (ys <- mapM f l ;; ret (map g ys)) env.
Proof.
  revert env. induction l as [|x l IH]; intros env; simpl; [reflexivity|].
  unfold bind. destruct (f x env) as [y env1|e]; [|reflexivity].
  unfold ret at 1. rewrite IH. unfold bind, ret.
  destruct (mapM f l env1); reflexivity.
Qed.

(** [arr.indexOf] finds the first occurrence. *)
Lemma arrayIndexOfFrom_first value before after i :
  value ∉ before ->
  arrayIndexOfFrom value (before ++ value :: after) i = (i + Z.of_nat (length before))%Z.
Proof.
  revert i. induction before as [|x before IH]; intros i Hnot; simpl.
  - rewrite String.eqb_refl. lia.
  - apply not_elem_of_cons in Hnot as [Hne Hnot].
    destruct (String.eqb_spec x value) as [->|_]; [congruence|].
    rewrite IH by assumption. lia.
Qed.

Lemma arrayIndexOfFrom_earlier value before after i :
  value ∈ before ->
  (arrayIndexOfFrom value (before ++ after) i < i + Z.of_nat (length before))%Z.
Proof.
  revert i. induction before as [|x before IH]; intros i Hin; simpl.
  - inversion Hin.
  - destruct (String.eqb_spec x value) as [->|Hne]; [lia|].
    apply elem_of_cons in Hin as [->|Hin]; [congruence|].
    specialize (IH (i + 1)%Z Hin). lia.
Qed.

Lemma isUnique_first value before after :
  isUnique value (Z.of_nat (length before)) (before ++ value :: after)
  = negb (bool_decide (value ∈ before)).
Proof.
  unfold isUnique, arrayIndexOf. case_bool_decide as Hin; simpl.
  - pose proof (arrayIndexOfFrom_earlier value before (value :: after) 0 Hin). lia.
  - rewrite arrayIndexOfFrom_first by assumption. lia.
Qed.

Lemma keepFirst_ext seen1 seen2 names :
  (forall n, n ∈ seen1 <-> n ∈ seen2) -> keepFirst seen1 names = keepFirst seen2 names.
Proof.
  revert seen1 seen2. induction names as [|x names IH]; intros seen1 seen2 Hsame; simpl.
  - reflexivity.
  - rewrite (bool_decide_ext _ _ (Hsame x)).
    destruct (bool_decide (x ∈ seen2)); [apply IH; assumption|].
    f_equal. apply IH. intros n. rewrite !elem_of_app, Hsame. tauto.
Qed.

Lemma filterFrom_isUnique before names :
  filterFrom isUnique (before ++ names) names (Z.of_nat (length before))
  = keepFirst before names.
Proof.
  revert before. induction names as [|n names IH]; intros before; simpl; [reflexivity|].
  rewrite isUnique_first.
  specialize (IH (before ++ [n])).
  rewrite <- app_assoc, length_app in IH. simpl in IH.
  replace (Z.of_nat (length before + 1)) with (Z.of_nat (length before) + 1)%Z in IH by lia.
  rewrite IH. case_bool_decide as Hseen; simpl; [|reflexivity].
  apply keepFirst_ext. intros x. rewrite elem_of_app, list_elem_of_singleton.
  split; [intros [Hx| ->]; assumption | auto].
Qed.

Lemma arrayFilter_isUnique names : arrayFilter isUnique names = keepFirst [] names.
Proof. exact (filterFrom_isUnique [] names). Qed.

(** A union is rendered as the spec's union row says: its members
    translated in order (without a parent, with the same [hasDefaultValue]),
    each rendering stripped and resolved in the table the members leave
    behind, duplicates dropped after their first occurrence, the rest joined
    with [" | "].  For [["string", "string", "null"]] that is
    [string | null | undefined] when [hasDefaultValue] is false and
    [string | null] when it is true, as a type and as the type of a field
    line, where the flag is the one computed from the field's default: the
    line is optional with [null | undefined] for a field without a default,
    and not optional with [null] for a field whose default is [null]. *)
Theorem union_rendering :
  (forall types hasDefaultValue parentRecordType env rendered env1,
     mapM (fun t => convertType t hasDefaultValue None) types env = Returns rendered env1 ->
     plain env1 ->
     convertType (TUnion types) hasDefaultValue parentRecordType env
       = Returns (unionOf (interfaces env1) rendered) env1) /\
  (forall env parentRecordType,
     plain env ->
     unregistered env ["string"; "null"; "null | undefined"] ->
     convertType stringStringNull false parentRecordType env
       = Returns "string | null | undefined" env /\
     convertType stringStringNull true parentRecordType env
       = Returns "string | null" env) /\
  (forall env field parentRecordType,
     plain env ->
     unregistered env ["string"; "null"; "null | undefined";
                       "string | null"; "string | null | undefined"] ->
     ftype field = stringStringNull ->
     convertFieldDec field parentRecordType env
       = Returns (fieldLine (document (fdoc field) TAB) (fname field)
                    (isOptional (ftype field) && negb (hasDefault (fdefault field)))
                    (if hasDefault (fdefault field) then "string | null"
                     else "string | null | undefined")) env) /\
  (forall env name doc parentRecordType,
     plain env ->
     unregistered env ["string"; "null"; "null | undefined";
                       "string | null"; "string | null | undefined"] ->
     convertFieldDec (mkField name doc None stringStringNull) parentRecordType env
       = Returns (document doc TAB +:+ TAB +:+ name
                  +:+ "?: string | null | undefined;") env /\
     convertFieldDec (mkField name doc (Some JNull) stringStringNull) parentRecordType env
       = Returns (document doc TAB +:+ TAB +:+ name +:+ ": string | null;") env).
Proof.
  assert (Hunion : forall types hd p env rendered env1,
     mapM (fun t => convertType t hd None) types env = Returns rendered env1 ->
     plain env1 ->
     convertType (TUnion types) hd p env = Returns (unionOf (interfaces env1) rendered) env1).
  { intros types hd p env rendered env1 Hmembers Hp.
    rewrite convertType_union.
    unfold bind at 1. rewrite mapM_post. rewrite (bind_step _ _ _ _ _ Hmembers).
    unfold ret at 1.
    rewrite (bind_step _ _ _ _ _ (mapM_resolve_plain _ _ Hp)).
    unfold ret, unionOf. rewrite arrayFilter_isUnique. reflexivity. }
  assert (Hexample : forall env p hd,
     plain env -> unregistered env ["string"; "null"; "null | undefined"] ->
     convertType stringStringNull hd p env
       = Returns (if hd then "string | null" else "string | null | undefined") env).
  { intros env p hd Hp Hun.
    apply Forall_cons in Hun as [Hs Hun]. apply Forall_cons in Hun as [Hn Hun].
    apply Forall_cons in Hun as [Hnu _].
    unfold stringStringNull.
    rewrite (Hunion _ hd p env
               ["string"; "string"; if hd then "null" else "null | undefined"] env).
    - unfold unionOf, resolved.
      destruct hd; simpl map;
        repeat match goal with
               | |- context [stripNamespace ?s] =>
                   let v := eval vm_compute in (stripNamespace s) in
                   change (stripNamespace s) with v
               end;
        rewrite ?Hs, ?Hn, ?Hnu; reflexivity.
    - assert (Hstring : convertPrimitive "string" hd env = Returns "string" env).
      { rewrite convertPrimitive_reference
          by (refine (bool_decide_unpack _ _); vm_compute; exact I).
        rewrite resolve_plain by assumption.
        unfold resolved. change (stripNamespace "string") with "string".
        rewrite Hs. reflexivity. }
      simpl. unfold bind. rewrite !Hstring. destruct hd; reflexivity.
    - assumption. }
  assert (Hfield : forall env field p,
     plain env ->
     unregistered env ["string"; "null"; "null | undefined";
                       "string | null"; "string | null | undefined"] ->
     ftype field = stringStringNull ->
     convertFieldDec field p env
       = Returns (fieldLine (document (fdoc field) TAB) (fname field)
                    (isOptional (ftype field) && negb (hasDefault (fdefault field)))
                    (if hasDefault (fdefault field) then "string | null"
                     else "string | null | undefined")) env).
  { intros env field p Hp Hun Htype.
    rewrite convertFieldDec_unfold, Htype.
    apply Forall_cons in Hun as [Hs Hun]. apply Forall_cons in Hun as [Hn Hun].
    apply Forall_cons in Hun as [Hnu Hun]. apply Forall_cons in Hun as [Hsn Hun].
    apply Forall_cons in Hun as [Hsnu _].
    rewrite (bind_step _ _ _ _ _ (Hexample env p (hasDefault (fdefault field)) Hp
               ltac:(repeat constructor; assumption))).
    rewrite (bind_step _ _ _ _ _ (resolve_plain _ env Hp)).
    unfold ret, resolved.
    destruct (hasDefault (fdefault field)); rewrite ?Hsn, ?Hsnu; reflexivity. }
  split; [exact Hunion|]. split; [|split; [exact Hfield|]].
  - intros env p Hp Hun. split; [apply (Hexample env p false) | apply (Hexample env p true)];
      assumption.
  - intros env name doc p Hp Hun. split.
    + rewrite (Hfield env (mkField name doc None stringStringNull) p Hp Hun eq_refl).
      reflexivity.
    + rewrite (Hfield env (mkField name doc (Some JNull) stringStringNull) p Hp Hun eq_refl).
      reflexivity.
Qed.

Lemma resolve_returns n env a env' :
  resolve n env = Returns a env' -> a = resolved (interfaces env) n /\ env' = env.
Proof.
  unfold resolve, bind, hasOwnProperty, resolved. intros H.
  destruct (interfaces env !! "hasOwnProperty"); [discriminate|].
  case_bool_decide as Hown; unfold getInterface, ret in H; injection H as <- <-.
  - split; reflexivity.
  - destruct (interfaces env !! n) eqn:E; [|split; reflexivity].
    exfalso. apply Hown. eauto.
Qed.

Lemma convertType_array_returns items hasDefaultValue parentRecordType env array env' :
  convertType (TArray items) hasDefaultValue parentRecordType env = Returns array env' ->
  exists r env1 properName,
    convertType items hasDefaultValue None env = Returns r env1 /\
    resolve (stripNamespace r) env1 = Returns properName env' /\
    array = if isUnion properName then "Array<" +:+ properName +:+ ">"
            else properName +:+ "[]".
Proof.
  simpl. intros H.
  apply bind_returns in H as (r & env1 & Hr & H).
  apply bind_returns in H as (properName & env2 & Hres & H).
  unfold ret in H. injection H as <- <-. eauto 6.
Qed.

(** C6, as the code has it.  How far the parent travels.  The fields of a
    record are translated with that record as the parent, and the parent
    reaches a record only when the record is itself the type of the field:
    its block is then named [I], the parent's stripped name and its own.
    Every other type is translated the same whatever the parent: the items
    of an array, the values of a map and the members of a union are
    translated without one, so a record among them is named [I] and its own
    stripped name. *)
Theorem parent_reaches_direct_records_only :
  (forall nested hasDefaultValue parentRecordType,
     convertType (TRecord nested) hasDefaultValue parentRecordType
     = convertRecord nested parentRecordType) /\
  (forall items hasDefaultValue parentRecordType,
     convertType (TArray items) hasDefaultValue parentRecordType =
     (r <- convertType items hasDefaultValue None ;;
      properName <- resolve (stripNamespace r) ;;
      ret (if isUnion properName then "Array<" +:+ properName +:+ ">"
           else properName +:+ "[]"))) /\
  (forall values hasDefaultValue parentRecordType,
     convertType (TMap values) hasDefaultValue parentRecordType =
     (r <- convertType values hasDefaultValue None ;;
      ret ("{ [key: string]: " +:+ r +:+ " }"))) /\
  (forall types hasDefaultValue parentRecordType,
     convertType (TUnion types) hasDefaultValue parentRecordType =
     (names <- mapM (fun t => r <- convertType t hasDefaultValue None ;;
                              ret (stripNamespace r)) types ;;
      rs <- mapM resolve names ;;
      ret (join " | " (arrayFilter isUnique rs)))) /\
  (forall nested hasDefaultValue env id env',
     convertType (TRecord nested) hasDefaultValue None env = Returns id env' ->
     id = "I" +:+ stripNamespace (rname nested)) /\
  (forall nested hasDefaultValue parentRecordType env rendered env',
     convertType (TArray (TRecord nested)) hasDefaultValue parentRecordType env
       = Returns rendered env' ->
     exists lines,
       last (buffer env')
       = Some (interfaceDef (document (rdoc nested) "")
                 ("I" +:+ stripNamespace (rname nested)) lines)) /\
  (forall nested hasDefaultValue parentRecordType env rendered env',
     convertType (TMap (TRecord nested)) hasDefaultValue parentRecordType env
       = Returns rendered env' ->
     rendered = "{ [key: string]: " +:+ ("I" +:+ stripNamespace (rname nested)) +:+ " }" /\
     exists lines,
       last (buffer env')
       = Some (interfaceDef (document (rdoc nested) "")
                 ("I" +:+ stripNamespace (rname nested)) lines)) /\
  (forall type hasDefaultValue parentRecordType,
     (forall nested, type <> TRecord nested) ->
     convertType type hasDefaultValue parentRecordType
     = convertType type hasDefaultValue None) /\
  (forall recordType parentRecordType,
     convertRecord recordType parentRecordType =
     (lines <- mapM (fun field => convertFieldDec field (Some recordType))
                 (rfields recordType) ;;
      push (interfaceDef (document (rdoc recordType) "")
              (interfaceName recordType parentRecordType) lines) ;;;
      setInterface (rname recordType) (interfaceName recordType parentRecordType) ;;;
      ret (interfaceName recordType parentRecordType))) /\
  (forall field nested parent env line env',
     ftype field = TRecord nested ->
     convertFieldDec field (Some parent) env = Returns line env' ->
     exists lines,
       last (buffer env')
       = Some (document (rdoc nested) "" +:+ "export interface "
               +:+ ("I" +:+ stripNamespace (rname parent) +:+ stripNamespace (rname nested))
               +:+ " {" +:+ LF +:+ join LF lines +:+ LF +:+ "}" +:+ LF)) /\
  (forall nested others hasDefaultValue parentRecordType env rendered env',
     convertType (TUnion (TRecord nested :: others)) hasDefaultValue parentRecordType env
       = Returns rendered env' ->
     exists lines env1,
       convertRecord nested None env
         = Returns ("I" +:+ stripNamespace (rname nested)) env1 /\
       last (buffer env1)
       = Some (document (rdoc nested) "" +:+ "export interface "
               +:+ ("I" +:+ stripNamespace (rname nested))
               +:+ " {" +:+ LF +:+ join LF lines +:+ LF +:+ "}" +:+ LF)).
Proof.
  split; [reflexivity|]. split; [reflexivity|]. split; [reflexivity|].
  split; [apply convertType_union|]. split; [|split; [|split; [|split; [|split; [|split]]]]].
  - intros nested hd env id env' Hrun. simpl in Hrun.
    apply convertRecord_returns in Hrun as (-> & _). reflexivity.
  - intros nested hd p env rendered env' Hrun.
    apply convertType_array_returns in Hrun as (r & env1 & properName & Hr & Hres & _).
    apply resolve_returns in Hres as [_ <-]. simpl in Hr.
    apply convertRecord_returns in Hr as (-> & lines & env0 & _ & Hbuf & _).
    exists lines. rewrite Hbuf. apply last_snoc.
  - intros nested hd p env rendered env' Hrun. simpl in Hrun.
    apply bind_returns in Hrun as (r & env1 & Hr & Hret).
    unfold ret in Hret. injection Hret as <- <-.
    apply convertRecord_returns in Hr as (-> & lines & env0 & _ & Hbuf & _).
    split; [reflexivity|]. exists lines. rewrite Hbuf. apply last_snoc.
  - intros type hd p Hrecord.
    destruct type as [s|types|r|items|values|e|precision scale|shape]; try reflexivity.
    exfalso. exact (Hrecord r eq_refl).
  - exact convertRecord_unfold.
  - intros field nested parent env line env' Htype Hrun.
    apply convertFieldDec_returns in Hrun as (type & env1 & replacedType & Hr & Hres & _).
    apply resolve_returns in Hres as [_ <-]. rewrite Htype in Hr. simpl in Hr.
    apply convertRecord_returns in Hr as (-> & lines & env0 & _ & Hbuf & _).
    exists lines. rewrite Hbuf. apply last_snoc.
  - intros nested others hd p env rendered env' Hrun.
    rewrite convertType_union in Hrun.
    apply bind_returns in Hrun as (names & e1 & Hnames & _).
    cbn [mapM] in Hnames.
    apply bind_returns in Hnames as (n & e2 & Hn & _).
    apply bind_returns in Hn as (r & e3 & Hr & _).
    change (convertRecord nested None env = Returns r e3) in Hr.
    pose proof (convertRecord_returns _ _ _ _ _ Hr) as (-> & lines & env0 & _ & Hbuf & _).
    exists lines, e3. split; [exact Hr|]. rewrite Hbuf. apply last_snoc.
Qed.

(** C7, as the code has it.  An array hands its own [hasDefaultValue] to
    its items and a map to its values; only a record stops the flag, being
    translated the same whatever it is.  So a [null] that is the items of an
    array or the values of a map is [null] when the flag is true and
    [null | undefined] when it is false, and in the line of a field the flag
    is the one computed from the field's default: false without a default,
    true for a default of [null] and for a truthy one. *)
Theorem hasDefaultValue_reaches_items_and_values :
  (forall items hasDefaultValue parentRecordType,
     convertType (TArray items) hasDefaultValue parentRecordType =
     (r <- convertType items hasDefaultValue None ;;
      properName <- resolve (stripNamespace r) ;;
      ret (if isUnion properName then "Array<" +:+ properName +:+ ">"
           else properName +:+ "[]"))) /\
  (forall values hasDefaultValue parentRecordType,
     convertType (TMap values) hasDefaultValue parentRecordType =
     (r <- convertType values hasDefaultValue None ;;
      ret ("{ [key: string]: " +:+ r +:+ " }"))) /\
  (forall hasDefaultValue parentRecordType env,
     convertType (TMap (TString "null")) hasDefaultValue parentRecordType env
     = Returns (if hasDefaultValue then "{ [key: string]: null }"
                else "{ [key: string]: null | undefined }") env) /\
  (forall hasDefaultValue parentRecordType env,
     plain env -> unregistered env ["null"; "null | undefined"] ->
     convertType (TArray (TString "null")) hasDefaultValue parentRecordType env
     = Returns (if hasDefaultValue then "null[]" else "Array<null | undefined>") env) /\
  (forall field parentRecordType env,
     plain env ->
     unregistered env ["null"; "null | undefined"; "null[]"; "Array<null | undefined>"] ->
     ftype field = TArray (TString "null") ->
     convertFieldDec field parentRecordType env
     = Returns (document (fdoc field) TAB +:+ TAB +:+ fname field +:+ ": "
                +:+ (if hasDefault (fdefault field) then "null[]"
                     else "Array<null | undefined>") +:+ ";") env) /\
  (forall field parentRecordType env,
     plain env ->
     unregistered env ["{ [key: string]: null }"; "{ [key: string]: null | undefined }"] ->
     ftype field = TMap (TString "null") ->
     convertFieldDec field parentRecordType env
     = Returns (document (fdoc field) TAB +:+ TAB +:+ fname field +:+ ": "
                +:+ (if hasDefault (fdefault field) then "{ [key: string]: null }"
                     else "{ [key: string]: null | undefined }") +:+ ";") env) /\
  (forall nested hasDefaultValue1 hasDefaultValue2 parentRecordType,
     convertType (TRecord nested) hasDefaultValue1 parentRecordType
     = convertType (TRecord nested) hasDefaultValue2 parentRecordType) /\
  (hasDefault None = false /\ hasDefault (Some JNull) = true /\
   forall default, truthy default = true -> hasDefault (Some default) = true).
Proof.
  assert (Harray : forall hd p env,
     plain env -> unregistered env ["null"; "null | undefined"] ->
     convertType (TArray (TString "null")) hd p env
     = Returns (if hd then "null[]" else "Array<null | undefined>") env).
  { intros hd p env Hp Hun.
    apply Forall_cons in Hun as [Hn Hun]. apply Forall_cons in Hun as [Hnu _].
    simpl. unfold bind.
    destruct hd; simpl; rewrite resolve_plain by assumption; unfold resolved, ret.
    - change (stripNamespace "null") with "null". rewrite Hn. reflexivity.
    - change (stripNamespace "null | undefined") with "null | undefined".
      rewrite Hnu. reflexivity. }
  assert (Hmap : forall hd p env,
     convertType (TMap (TString "null")) hd p env
     = Returns (if hd then "{ [key: string]: null }"
                else "{ [key: string]: null | undefined }") env)
    by (intros [|] p env; reflexivity).
  split; [reflexivity|]. split; [reflexivity|].
  split; [exact Hmap|].
  split; [exact Harray|].
  split; [|split; [|split; [reflexivity|]]].
  - intros field p env Hp Hun Htype.
    rewrite convertFieldDec_unfold, Htype.
    apply Forall_cons in Hun as [Hn Hun]. apply Forall_cons in Hun as [Hnu Hun].
    apply Forall_cons in Hun as [Ha Hun]. apply Forall_cons in Hun as [Hau _].
    rewrite (bind_step _ _ _ _ _ (Harray (hasDefault (fdefault field)) p env Hp
               ltac:(repeat constructor; assumption))).
    rewrite (bind_step _ _ _ _ _ (resolve_plain _ env Hp)).
    unfold ret, resolved.
    destruct (hasDefault (fdefault field)); rewrite ?Ha, ?Hau; reflexivity.
  - intros field p env Hp Hun Htype.
    rewrite convertFieldDec_unfold, Htype.
    apply Forall_cons in Hun as [Hm Hun]. apply Forall_cons in Hun as [Hmu _].
    rewrite (bind_step _ _ _ _ _ (Hmap (hasDefault (fdefault field)) p env)).
    rewrite (bind_step _ _ _ _ _ (resolve_plain _ env Hp)).
    unfold ret, resolved.
    destruct (hasDefault (fdefault field)); rewrite ?Hm, ?Hmu; reflexivity.
  - split; [reflexivity|]. split; [reflexivity|].
    intros [|b|n|s|items|members] Htruthy; first [discriminate | exact Htruthy | reflexivity].
Qed.

(** [s.indexOf(c)] is not negative exactly when [c] occurs in [s]. *)
Lemma indexOfFrom_found c s i :
  c ∈ list_ascii_of_string s -> (i <= indexOfFrom c s i)%Z.
Proof.
  revert i. induction s as [|d s IH]; intros i Hin.
  - inversion Hin.
  - cbn [indexOfFrom]. destruct (Ascii.eqb_spec d c) as [->|Hne]; [lia|].
    cbn [list_ascii_of_string] in Hin.
    apply elem_of_cons in Hin as [->|Hin]; [congruence|].
    specialize (IH (i + 1)%Z Hin). lia.
Qed.

Lemma indexOfFrom_absent c s i :
  c ∉ list_ascii_of_string s -> indexOfFrom c s i = (-1)%Z.
Proof.
  revert i. induction s as [|d s IH]; intros i Hnot.
  - reflexivity.
  - cbn [indexOfFrom]. cbn [list_ascii_of_string] in Hnot.
    apply not_elem_of_cons in Hnot as [Hne Hnot].
    destruct (Ascii.eqb_spec d c) as [->|_]; [congruence|].
    apply IH. assumption.
Qed.

Lemma isUnion_spec s : isUnion s = true <-> "|"%char ∈ list_ascii_of_string s.
Proof.
  unfold isUnion, indexOf. split.
  - intros Hx. destruct (decide ("|"%char ∈ list_ascii_of_string s)) as [|Hnot]; [assumption|].
    rewrite (indexOfFrom_absent _ _ _ Hnot) in Hx. discriminate.
  - intros Hin. apply Z.leb_le. apply indexOfFrom_found. assumption.
Qed.

(** C8.  An array is rendered from its element, the items' rendering
    stripped and resolved: [Array<element>] when the element contains the
    union separator, [element[]] when it does not.  So whatever stands before
    a closing [[]] holds no [|]. *)
Theorem array_rendering :
  (forall items hasDefaultValue parentRecordType env rendered env1,
     convertType items hasDefaultValue None env = Returns rendered env1 ->
     plain env1 ->
     let element := resolved (interfaces env1) (stripNamespace rendered) in
     convertType (TArray items) hasDefaultValue parentRecordType env
     = Returns (if isUnion element then "Array<" +:+ element +:+ ">"
                else element +:+ "[]") env1) /\
  (forall s, isUnion s = true <-> "|"%char ∈ list_ascii_of_string s) /\
  (forall items hasDefaultValue parentRecordType env array env',
     convertType (TArray items) hasDefaultValue parentRecordType env = Returns array env' ->
     forall element, array = element +:+ "[]" -> isUnion element = false).
Proof.
  split; [|split; [exact isUnion_spec|]].
  - intros items hd p env rendered env1 Hitems Hp element. simpl.
    rewrite (bind_step _ _ _ _ _ Hitems).
    rewrite (bind_step _ _ _ _ _ (resolve_plain _ env1 Hp)). reflexivity.
  - intros items hd p env array env' Hrun element Hshape.
    apply convertType_array_returns in Hrun as (r & env1 & properName & _ & _ & ->).
    destruct (isUnion properName) eqn:Hu.
    + exfalso. apply (f_equal list_ascii_of_string) in Hshape.
      rewrite !chars_app in Hshape.
      change (list_ascii_of_string ">") with [">"%char] in Hshape.
      change (list_ascii_of_string "[]") with (["["%char] ++ ["]"%char]) in Hshape.
      rewrite !app_assoc in Hshape.
      apply (f_equal last) in Hshape. rewrite !last_snoc in Hshape. discriminate.
    + apply append_inv_tail in Hshape. subst element. exact Hu.
Qed.

Lemma keeps_ret {A} n (a : A) : keeps n (ret a).
Proof. intros env b env' H. injection H as _ <-. reflexivity. Qed.

Lemma keeps_bind {A B} n (m : Js A) (k : A -> Js B) :
  keeps n m -> (forall a, keeps n (k a)) -> keeps n (bind m k).
Proof.
  intros Hm Hk env b env' H. apply bind_returns in H as (a & env1 & H1 & H2).
  rewrite (Hk _ _ _ _ H2). eapply Hm. eassumption.
Qed.

Lemma keeps_mapM {A B} n (f : A -> Js B) (l : list A) :
  Forall (fun x => keeps n (f x)) l -> keeps n (mapM f l).
Proof.
  induction 1 as [|x l Hx _ IH]; simpl; [apply keeps_ret|].
  apply keeps_bind; [assumption|]. intros y.
  apply keeps_bind; [assumption|]. intros ys. apply keeps_ret.
Qed.

Lemma keeps_resolve n name : keeps n (resolve name).
Proof.
  intros env a env' H. unfold resolve, bind, hasOwnProperty in H.
  destruct (interfaces env !! "hasOwnProperty"); [discriminate|].
  destruct (bool_decide _); unfold getInterface, ret in H; injection H as _ <-; reflexivity.
Qed.

Lemma keeps_convertPrimitive n avroType hasDefaultValue :
  keeps n (convertPrimitive avroType hasDefaultValue).
Proof.
  unfold convertPrimitive.
  repeat (match goal with |- context [if ?b then _ else _] => destruct b end;
          try apply keeps_ret).
  apply keeps_resolve.
Qed.

Lemma keeps_convertEnum n enumType : keeps n (convertEnum enumType).
Proof. intros env a env' H. rewrite convertEnum_returns in H. injection H as _ <-. reflexivity. Qed.

(** Only a record of that name changes the entry of a name. *)
Lemma convertType_keeps n type :
  forall hasDefaultValue parentRecordType,
    declares n type = false -> keeps n (convertType type hasDefaultValue parentRecordType).
Proof.
  apply (schema_ind
    (fun t => forall hd p, declares n t = false -> keeps n (convertType t hd p))
    (fun r => forall p, declaresRecord n r = false -> keeps n (convertRecord r p))
    (fun f => forall p, declaresField n f = false -> keeps n (convertFieldDec f p))).
  - intros s hd p _. apply keeps_convertPrimitive.
  - intros types IH hd p Hd. rewrite convertType_union. simpl in Hd.
    apply keeps_bind.
    + apply keeps_mapM. rewrite Forall_forall in IH. apply Forall_forall. intros t Ht.
      apply keeps_bind; [|intros r; apply keeps_ret].
      apply IH; [assumption|].
      destruct (declares n t) eqn:E; [|reflexivity].
      rewrite <- Hd. symmetry. apply existsb_exists. exists t.
      split; [apply list_elem_of_In; assumption | assumption].
    + intros names. apply keeps_bind; [|intros rs; apply keeps_ret].
      apply keeps_mapM. apply Forall_forall. intros x _. apply keeps_resolve.
  - intros r IH hd p Hd. simpl. apply IH. assumption.
  - intros items IH hd p Hd. simpl in *. apply keeps_bind; [apply IH; assumption|].
    intros r. apply keeps_bind; [apply keeps_resolve|]. intros x. apply keeps_ret.
  - intros values IH hd p Hd. simpl in *. apply keeps_bind; [apply IH; assumption|].
    intros r. apply keeps_ret.
  - intros e hd p _. apply keeps_convertEnum.
  - intros precision scale hd p _. apply keeps_ret.
  - intros shape hd p _ env a env' H. simpl in H. injection H as _ <-. reflexivity.
  - intros name doc fields IH p Hd env id env' Hrun.
    simpl in Hd. apply orb_false_elim in Hd as [Hname Hfields].
    apply String.eqb_neq in Hname.
    apply convertRecord_returns in Hrun as (_ & lines & env1 & Hlines & _ & _ & ->).
    assert (Hkeep : interfaces env1 !! n = interfaces env !! n).
    { revert Hlines. apply keeps_mapM.
      rewrite Forall_forall in IH. apply Forall_forall. intros f Hf. apply IH; [assumption|].
      destruct (declaresField n f) eqn:E; [|reflexivity].
      rewrite <- Hfields. symmetry. apply existsb_exists. exists f.
      split; [apply list_elem_of_In; assumption | assumption]. }
    simpl. case_decide; [assumption|]. rewrite lookup_insert_ne; assumption.
  - intros name doc default ty IH p Hd. rewrite convertFieldDec_unfold. simpl in *.
    apply keeps_bind; [apply IH; assumption|].
    intros r. apply keeps_bind; [apply keeps_resolve|]. intros x. apply keeps_ret.
Qed.

(** ** What unrecognized nodes change *)

Lemma sameFate_ret {A B} (R : A -> B -> Prop) a b env1 env2 :
  R a b -> alike env1 env2 -> sameFate R (ret a env1) (ret b env2).
Proof. intros HR Ha. split; assumption. Qed.

Lemma sameFate_bind {A B C D} (R : A -> B -> Prop) (S : C -> D -> Prop)
    (m1 : Js A) (m2 : Js B) (k1 : A -> Js C) (k2 : B -> Js D) env1 env2 :
  sameFate R (m1 env1) (m2 env2) ->
  (forall a b e1 e2, R a b -> alike e1 e2 -> sameFate S (k1 a e1) (k2 b e2)) ->
  sameFate S (bind m1 k1 env1) (bind m2 k2 env2).
Proof.
  unfold bind. intros Hm Hk.
  destruct (m1 env1) as [a e1|x1], (m2 env2) as [b e2|x2]; simpl in Hm; try contradiction.
  - destruct Hm as [HR Ha]. apply Hk; assumption.
  - exact I.
Qed.

Lemma sameFate_resolve n1 n2 env1 env2 :
  alike env1 env2 -> sameFate anyValue (resolve n1 env1) (resolve n2 env2).
Proof.
  intros [Ht Hb]. unfold resolve, bind, hasOwnProperty. rewrite Ht.
  destruct (interfaces env2 !! "hasOwnProperty"); [exact I|].
  do 2 (destruct (bool_decide _)); unfold getInterface, ret;
    (split; [exact I | split; assumption]).
Qed.

Lemma sameFate_mapM_resolve names1 names2 env1 env2 :
  sameLength names1 names2 -> alike env1 env2 ->
  sameFate sameLength (mapM resolve names1 env1) (mapM resolve names2 env2).
Proof.
  revert names2 env1 env2.
  induction names1 as [|n1 names1 IH]; intros [|n2 names2] env1 env2 Hlen Ha;
    try discriminate; simpl.
  - split; [reflexivity | assumption].
  - eapply sameFate_bind; [apply sameFate_resolve; assumption|].
    intros a b e1 e2 _ Ha'.
    eapply sameFate_bind; [apply IH; [injection Hlen; auto | assumption]|].
    intros l1 l2 e1' e2' Hl Ha''. apply sameFate_ret; [|assumption].
    unfold sameLength in *. simpl. congruence.
Qed.

Lemma sameFate_mapM {A B C} (f : A -> Js B) (g : A -> Js C) (h : A -> A) (l : list A) :
  Forall (fun x => forall e1 e2, alike e1 e2 -> sameFate anyValue (f x e1) (g (h x) e2)) l ->
  forall env1 env2, alike env1 env2 ->
    sameFate sameLength (mapM f l env1) (mapM g (map h l) env2).
Proof.
  induction 1 as [|x l Hx _ IH]; intros env1 env2 Ha; simpl.
  - split; [reflexivity | assumption].
  - eapply sameFate_bind; [apply Hx; assumption|].
    intros a b e1 e2 _ Ha'.
    eapply sameFate_bind; [apply IH; assumption|].
    intros l1 l2 e1' e2' Hl Ha''. apply sameFate_ret; [|assumption].
    unfold sameLength in *. simpl. congruence.
Qed.

Lemma sameFate_convertPrimitive avroType hasDefaultValue env1 env2 :
  alike env1 env2 ->
  sameFate anyValue (convertPrimitive avroType hasDefaultValue env1)
    (convertPrimitive avroType hasDefaultValue env2).
Proof.
  intros Ha. unfold convertPrimitive.
  repeat (match goal with |- context [if ?b then _ else _] => destruct b end;
          try (apply sameFate_ret; [exact I | assumption])).
  apply sameFate_resolve. assumption.
Qed.

Lemma alike_push block1 block2 env1 env2 :
  alike env1 env2 ->
  alike (mkEnv (interfaces env1) (buffer env1 ++ [block1]) (console env1))
        (mkEnv (interfaces env2) (buffer env2 ++ [block2]) (console env2)).
Proof. intros [Ht Hb]. split; simpl; [assumption | rewrite !length_app, Hb; reflexivity]. Qed.

Lemma interfaceName_sameName r1 r2 p1 p2 :
  rname r1 = rname r2 -> sameName p1 p2 -> interfaceName r1 p1 = interfaceName r2 p2.
Proof.
  unfold sameName, interfaceName. intros Hr Hp.
  destruct p1, p2; simpl in Hp; try discriminate; rewrite Hr; [|reflexivity].
  injection Hp as ->. reflexivity.
Qed.

(** Replacing the unrecognized nodes of a schema changes neither whether its
    translation returns, nor the table it leaves, nor how many blocks it
    appends. *)
Lemma convertType_recognized type :
  forall hasDefaultValue p1 p2 env1 env2,
    sameName p1 p2 -> alike env1 env2 ->
    sameFate anyValue (convertType type hasDefaultValue p1 env1)
      (convertType (recognized type) hasDefaultValue p2 env2).
Proof.
  apply (schema_ind
    (fun t => forall hd p1 p2 env1 env2, sameName p1 p2 -> alike env1 env2 ->
       sameFate anyValue (convertType t hd p1 env1) (convertType (recognized t) hd p2 env2))
    (fun r => forall p1 p2 env1 env2, sameName p1 p2 -> alike env1 env2 ->
       sameFate anyValue (convertRecord r p1 env1) (convertRecord (recognizedRecord r) p2 env2))
    (fun f => forall p1 p2 env1 env2, sameName p1 p2 -> alike env1 env2 ->
       sameFate anyValue (convertFieldDec f p1 env1)
         (convertFieldDec (recognizedField f) p2 env2))).
  - intros s hd p1 p2 env1 env2 _ Ha. apply sameFate_convertPrimitive, Ha.
  - intros types IH hd p1 p2 env1 env2 _ Ha.
    change (recognized (TUnion types)) with (TUnion (map recognized types)).
    rewrite !convertType_union.
    eapply sameFate_bind.
    + apply (sameFate_mapM _ _ recognized); [|assumption].
      eapply Forall_impl; [exact IH|]. cbv beta. intros t Ht e1 e2 Ha'.
      eapply sameFate_bind; [apply Ht; [reflexivity | assumption]|].
      intros a b e1' e2' _ Ha''. apply sameFate_ret; [exact I | assumption].
    + intros names1 names2 e1 e2 Hlen Ha'.
      eapply sameFate_bind; [apply sameFate_mapM_resolve; eassumption|].
      intros rs1 rs2 e1' e2' _ Ha''. apply sameFate_ret; [exact I | assumption].
  - intros r IH hd p1 p2 env1 env2 Hp Ha. simpl. apply IH; assumption.
  - intros items IH hd p1 p2 env1 env2 _ Ha. simpl.
    eapply sameFate_bind; [apply IH; [reflexivity | assumption]|].
    intros a b e1 e2 _ Ha'.
    eapply sameFate_bind; [apply sameFate_resolve; eassumption|].
    intros x y e1' e2' _ Ha''. apply sameFate_ret; [exact I | assumption].
  - intros values IH hd p1 p2 env1 env2 _ Ha. simpl.
    eapply sameFate_bind; [apply IH; [reflexivity | assumption]|].
    intros a b e1 e2 _ Ha'. apply sameFate_ret; [exact I | assumption].
  - intros e hd p1 p2 env1 env2 _ Ha.
    change (sameFate anyValue (convertEnum e env1) (convertEnum e env2)).
    rewrite !convertEnum_returns.
    split; [exact I | apply alike_push; assumption].
  - intros precision scale hd p1 p2 env1 env2 _ Ha. simpl.
    apply sameFate_ret; [exact I | assumption].
  - intros shape hd p1 p2 env1 env2 _ [Ht Hb]. simpl.
    split; [exact I | split; assumption].
  - intros name doc fields IH p1 p2 env1 env2 Hp Ha.
    rewrite !convertRecord_unfold.
    change (rfields (recognizedRecord (mkRecord name doc fields)))
      with (map recognizedField fields).
    change (rfields (mkRecord name doc fields)) with fields.
    eapply sameFate_bind.
    + apply (sameFate_mapM _ _ recognizedField); [|assumption].
      eapply Forall_impl; [exact IH|]. cbv beta. intros f Hf e1 e2 Ha'.
      apply Hf; [reflexivity | assumption].
    + intros lines1 lines2 e1 e2 _ Ha'.
      rewrite (interfaceName_sameName (mkRecord name doc fields)
                 (recognizedRecord (mkRecord name doc fields)) p1 p2 eq_refl Hp).
      unfold bind, push, setInterface, ret. simpl rname.
      case_decide; (split; [exact I|]).
      * apply alike_push. assumption.
      * destruct (alike_push (interfaceDef (document doc "")
                   (interfaceName (recognizedRecord (mkRecord name doc fields)) p2) lines1)
                   (interfaceDef (document doc "")
                   (interfaceName (recognizedRecord (mkRecord name doc fields)) p2) lines2)
                   e1 e2 Ha') as [Ht Hb].
        simpl in Ht, Hb. split; simpl; [rewrite Ht; reflexivity | exact Hb].
  - intros name doc default ty IH p1 p2 env1 env2 Hp Ha.
    rewrite !convertFieldDec_unfold. simpl.
    eapply sameFate_bind; [apply IH; assumption|].
    intros a b e1 e2 _ Ha'.
    eapply sameFate_bind; [apply sameFate_resolve; eassumption|].
    intros x y e1' e2' _ Ha''. apply sameFate_ret; [exact I | assumption].
Qed.

Lemma recognized_all type : unrecognized (recognized type) = [].
Proof.
  apply (schema_ind
    (fun t => unrecognized (recognized t) = [])
    (fun r => unrecognizedRecord (recognizedRecord r) = [])
    (fun f => unrecognizedField (recognizedField f) = [])); try reflexivity.
  - intros types IH. simpl. induction IH as [|t types Ht _ IH]; [reflexivity|].
    simpl. rewrite Ht, IH. reflexivity.
  - intros r IH. exact IH.
  - intros items IH. exact IH.
  - intros values IH. exact IH.
  - intros name doc fields IH. simpl. induction IH as [|f fields Hf _ IH]; [reflexivity|].
    simpl. rewrite Hf, IH. reflexivity.
  - intros name doc default ty IH. exact IH.
Qed.

(** C2, as the code has it.  A record (whose name is not [__proto__]) is
    registered under its declared name, with its generated identifier, and
    stays so until a record of that name is translated again; while it is, a
    reference whose namespace-stripped text is that declared name yields the
    identifier.  An enum is not registered: the table is left as it was, and
    a later reference yields whatever its stripped text resolves to in that
    table. *)
Theorem registered_record_is_resolved :
  (forall recordType parentRecordType env id env',
     convertRecord recordType parentRecordType env = Returns id env' ->
     rname recordType <> "__proto__" ->
     id = interfaceName recordType parentRecordType /\
     interfaces env' !! rname recordType = Some id) /\
  (forall name type hasDefaultValue parentRecordType env rendered env',
     declares name type = false ->
     convertType type hasDefaultValue parentRecordType env = Returns rendered env' ->
     interfaces env' !! name = interfaces env !! name) /\
  (forall env name id reference hasDefaultValue,
     interfaces env !! name = Some id ->
     plain env ->
     reference ∉ primitiveNames ->
     stripNamespace reference = name ->
     convertPrimitive reference hasDefaultValue env = Returns id env) /\
  (forall enumType env,
     exists env',
       convertEnum enumType env = Returns (ename enumType) env' /\
       interfaces env' = interfaces env /\
       (plain env ->
        forall reference hasDefaultValue,
          reference ∉ primitiveNames ->
          convertPrimitive reference hasDefaultValue env'
            = Returns (resolved (interfaces env) (stripNamespace reference)) env')).
Proof.
  split; [|split; [|split]].
  - intros r p env id env' Hrun Hname.
    pose proof (convertRecord_registers _ _ _ _ _ Hrun Hname) as Hreg.
    apply convertRecord_returns in Hrun as (-> & _).
    split; [reflexivity | exact Hreg].
  - intros name type hd p env rendered env' Hd Hrun.
    exact (convertType_keeps name type hd p Hd env rendered env' Hrun).
  - intros env name id reference hd Hreg Hp Hprim Hstrip.
    rewrite convertPrimitive_reference by assumption.
    rewrite resolve_plain by assumption.
    unfold resolved. rewrite Hstrip, Hreg. reflexivity.
  - intros e env. eexists. split; [apply convertEnum_returns|].
    split; [reflexivity|].
    intros Hp reference hd Hprim.
    rewrite convertPrimitive_reference by assumption.
    rewrite resolve_plain by exact Hp. reflexivity.
Qed.

(** C10.  A field line carries its type resolved once more: what
    [convertType] returned is looked up in the table as a whole.  A record
    is registered under its declared name and stays so until a record of that
    name is translated again; so while a name is registered, every field
    whose type renders as that very name is emitted with the registered
    identifier in its place. *)
Theorem field_type_is_resolved_again :
  (forall field parentRecordType env type env1,
     convertType (ftype field) (hasDefault (fdefault field)) parentRecordType env
       = Returns type env1 ->
     plain env1 ->
     convertFieldDec field parentRecordType env
     = Returns (fieldLine (document (fdoc field) TAB) (fname field)
                  (isOptional (ftype field) && negb (hasDefault (fdefault field)))
                  (resolved (interfaces env1) type)) env1) /\
  (forall recordType recordParent env0 id env,
     convertRecord recordType recordParent env0 = Returns id env ->
     rname recordType <> "__proto__" ->
     interfaces env !! rname recordType = Some id) /\
  (forall name type hasDefaultValue parentRecordType env rendered env',
     declares name type = false ->
     convertType type hasDefaultValue parentRecordType env = Returns rendered env' ->
     interfaces env' !! name = interfaces env !! name) /\
  (forall field parentRecordType env id type env1,
     interfaces env !! type = Some id ->
     declaresField type field = false ->
     convertType (ftype field) (hasDefault (fdefault field)) parentRecordType env
       = Returns type env1 ->
     plain env1 ->
     convertFieldDec field parentRecordType env
     = Returns (fieldLine (document (fdoc field) TAB) (fname field)
                  (isOptional (ftype field) && negb (hasDefault (fdefault field)))
                  id) env1).
Proof.
  assert (Hagain : forall field p env type env1,
     convertType (ftype field) (hasDefault (fdefault field)) p env = Returns type env1 ->
     plain env1 ->
     convertFieldDec field p env
     = Returns (fieldLine (document (fdoc field) TAB) (fname field)
                  (isOptional (ftype field) && negb (hasDefault (fdefault field)))
                  (resolved (interfaces env1) type)) env1).
  { intros field p env type env1 Htype Hp.
    rewrite convertFieldDec_unfold.
    rewrite (bind_step _ _ _ _ _ Htype).
    rewrite (bind_step _ _ _ _ _ (resolve_plain _ env1 Hp)). reflexivity. }
  split; [exact Hagain|]. split; [exact convertRecord_registers|]. split.
  - intros name type hd p env rendered env' Hd Hrun.
    exact (convertType_keeps name type hd p Hd env rendered env' Hrun).
  - intros field p env id type env1 Hreg Hd Htype Hp.
    rewrite (Hagain _ _ _ _ _ Htype Hp).
    destruct field as [name doc default ty]. simpl in Hd, Htype.
    rewrite <- (convertType_keeps type ty _ p Hd env type env1 Htype) in Hreg.
    unfold resolved. rewrite Hreg. reflexivity.
Qed.

(** ** Further properties of the translator *)

Lemma split_nonempty sep s : split sep s <> [].
Proof.
  destruct s as [|c s]; simpl; [discriminate|].
  destruct (Ascii.eqb c sep); [discriminate|].
  destruct (split sep s); discriminate.
Qed.

Lemma split_without sep s : sep ∉ list_ascii_of_string s -> split sep s = [s].
Proof.
  induction s as [|c s IH]; intros Hnot; [reflexivity|].
  cbn [list_ascii_of_string] in Hnot. apply not_elem_of_cons in Hnot as [Hne Hnot].
  cbn [split]. destruct (Ascii.eqb_spec c sep) as [->|_]; [congruence|].
  rewrite IH by assumption. reflexivity.
Qed.

Lemma split_around sep a b :
  split sep (a +:+ String sep b) = split sep a ++ split sep b.
Proof.
  induction a as [|c a IH]; simpl.
  - rewrite Ascii.eqb_refl. reflexivity.
  - rewrite IH. destruct (Ascii.eqb c sep); [reflexivity|].
    pose proof (split_nonempty sep a) as Hne.
    destruct (split sep a) as [|piece pieces]; [contradiction | reflexivity].
Qed.

Lemma stripNamespace_whole name :
  "."%char ∉ list_ascii_of_string name -> stripNamespace name = name.
Proof.
  intros Hnot. unfold stripNamespace, pop.
  rewrite (split_without _ name Hnot). reflexivity.
Qed.

(** [stripNamespace] returns what follows the last dot, and the whole name
    when there is none. *)
Theorem stripNamespace_after_last_dot :
  (forall prefix rest,
     "."%char ∉ list_ascii_of_string rest ->
     stripNamespace (prefix +:+ "." +:+ rest) = rest) /\
  (forall name, "."%char ∉ list_ascii_of_string name -> stripNamespace name = name).
Proof.
  split.
  - intros prefix rest Hnot. unfold stripNamespace, pop.
    change (prefix +:+ "." +:+ rest) with (prefix +:+ String "."%char rest).
    rewrite split_around, (split_without _ rest Hnot), last_snoc. reflexivity.
  - intros name Hnot. unfold stripNamespace, pop.
    rewrite (split_without _ name Hnot). reflexivity.
Qed.

(** The primitives are translated the same in every state; only [null]
    looks at [hasDefaultValue]. *)
Theorem primitive_mapping hasDefaultValue env :
  convertPrimitive "long" hasDefaultValue env = Returns "number" env /\
  convertPrimitive "int" hasDefaultValue env = Returns "number" env /\
  convertPrimitive "double" hasDefaultValue env = Returns "number" env /\
  convertPrimitive "float" hasDefaultValue env = Returns "number" env /\
  convertPrimitive "bytes" hasDefaultValue env = Returns "Buffer" env /\
  convertPrimitive "boolean" hasDefaultValue env = Returns "boolean" env /\
  convertPrimitive "null" hasDefaultValue env
    = Returns (if hasDefaultValue then "null" else "null | undefined") env.
Proof. repeat split; try reflexivity. destruct hasDefaultValue; reflexivity. Qed.

(** An enum whose declared name has no namespace is translated the same at
    top level and below any parent: its stripped name, which is its name,
    comes back, and one block under that name is appended that lists the
    symbols in order, each as [S = 'S']; the table is not touched. *)
Theorem enum_rendering enumType hasDefaultValue parentRecordType env :
  "."%char ∉ list_ascii_of_string (ename enumType) ->
  let enumDef :=
    document (edoc enumType) "" +:+ "export enum " +:+ stripNamespace (ename enumType)
    +:+ " {" +:+ LF +:+ TAB
    +:+ join ("," +:+ LF +:+ TAB)
          (map (fun s => s +:+ " = '" +:+ s +:+ "'") (symbols enumType))
    +:+ LF +:+ "}" +:+ LF in
  convertType (TEnum enumType) hasDefaultValue parentRecordType env
  = Returns (stripNamespace (ename enumType))
      (mkEnv (interfaces env) (buffer env ++ [enumDef]) (console env)) /\
  avroToTypeScript (inr enumType) env
  = Returns enumDef (mkEnv (interfaces env) [enumDef] (console env)).
Proof.
  intros Hnot enumDef. subst enumDef.
  rewrite (stripNamespace_whole _ Hnot). split; reflexivity.
Qed.

(** The optional marker as the code computes it: a field line carries it
    exactly when the type is optional and the default is absent, or present
    but falsy and not [null]. *)
Theorem optional_marker :
  (forall field parentRecordType env line env',
     convertFieldDec field parentRecordType env = Returns line env' ->
     exists replacedType,
       line = fieldLine (document (fdoc field) TAB) (fname field)
                (isOptional (ftype field) && negb (hasDefault (fdefault field)))
                replacedType) /\
  (forall default,
     hasDefault default = true <->
     default = Some JNull \/ exists v, default = Some v /\ truthy v = true) /\
  (forall doc name replacedType,
     fieldLine doc name true replacedType = doc +:+ TAB +:+ name +:+ "?: " +:+ replacedType +:+ ";" /\
     fieldLine doc name false replacedType = doc +:+ TAB +:+ name +:+ ": " +:+ replacedType +:+ ";").
Proof.
  split; [|split].
  - intros field p env line env' Hrun.
    apply convertFieldDec_returns in Hrun as (type & env1 & replacedType & _ & _ & ->).
    exists replacedType. reflexivity.
  - intros [v|]; simpl; split.
    + intros H. destruct v; eauto.
    + intros [H|(w & H & Hw)]; [injection H as ->; reflexivity|].
      injection H as ->. destruct w; first [reflexivity | assumption].
    + discriminate.
    + intros [H|(w & H & _)]; discriminate.
  - intros doc name replacedType. split; reflexivity.
Qed.

(** ** The table a translation leaves *)

(** The entries a translation stores, in the order it stores them: for a
    record, those of its fields' types, then its own. *)
Fixpoint registrations (t : AvroType) (parentRecordType : option RecordType)
    : list (string * string) :=
  match t with
  | TUnion types => flat_map (fun member => registrations member None) types
  | TRecord r => registrationsRecord r parentRecordType
  | TArray items => registrations items None
  | TMap values => registrations values None
  | _ => []
  end
with registrationsRecord (r : RecordType) (parentRecordType : option RecordType)
    : list (string * string) :=
  match r with
  | mkRecord name _ fields =>
      flat_map (fun field => registrationsField field (Some r)) fields
      ++ [(name, interfaceName r parentRecordType)]
  end
with registrationsField (f : Field) (parentRecordType : option RecordType)
    : list (string * string) :=
  match f with
  | mkField _ _ _ type => registrations type parentRecordType
  end.

(** [interfaces[k] = v] for each entry in turn. *)
Definition register (table : gmap string string) (entries : list (string * string))
    : gmap string string :=
  fold_left (fun m entry => if decide (entry.1 = "__proto__") then m
                            else <[entry.1 := entry.2]> m) entries table.

(** [registers m entries]: a run of [m] that returns has stored [entries]. *)
Definition registers {A} (m : Js A) (entries : list (string * string)) : Prop :=
  forall env a env', m env = Returns a env' ->
    interfaces env' = register (interfaces env) entries.

Lemma register_app table entries1 entries2 :
  register table (entries1 ++ entries2) = register (register table entries1) entries2.
Proof. apply fold_left_app. Qed.

Lemma registers_ret {A} (a : A) : registers (ret a) [].
Proof. intros env b env' H. injection H as _ <-. reflexivity. Qed.

Lemma registers_bind {A B} (m : Js A) (k : A -> Js B) entries1 entries2 :
  registers m entries1 -> (forall a, registers (k a) entries2) ->
  registers (bind m k) (entries1 ++ entries2).
Proof.
  intros Hm Hk env b env' H. apply bind_returns in H as (a & env1 & H1 & H2).
  rewrite register_app, <- (Hm _ _ _ H1). exact (Hk _ _ _ _ H2).
Qed.

Lemma registers_last {A B} (m : Js A) (k : A -> Js B) entries :
  registers m entries -> (forall a, registers (k a) []) -> registers (bind m k) entries.
Proof.
  intros Hm Hk. rewrite <- (app_nil_r entries). apply registers_bind; assumption.
Qed.

Lemma registers_mapM {A B} (f : A -> Js B) (g : A -> list (string * string)) (l : list A) :
  Forall (fun x => registers (f x) (g x)) l -> registers (mapM f l) (flat_map g l).
Proof.
  induction 1 as [|x l Hx _ IH]; simpl; [apply registers_ret|].
  apply registers_bind; [assumption|]. intros y.
  apply registers_last; [assumption|]. intros ys. apply registers_ret.
Qed.

Lemma registers_mapM_none {A B} (f : A -> Js B) (l : list A) :
  (forall x, registers (f x) []) -> registers (mapM f l) [].
Proof.
  intros Hf. induction l as [|x l IH]; simpl; [apply registers_ret|].
  apply registers_last; [apply Hf|]. intros y.
  apply registers_last; [assumption|]. intros ys. apply registers_ret.
Qed.

Lemma registers_resolve name : registers (resolve name) [].
Proof. intros env a env' H. apply resolve_returns in H as [_ ->]. reflexivity. Qed.

Lemma registers_convertPrimitive avroType hasDefaultValue :
  registers (convertPrimitive avroType hasDefaultValue) [].
Proof.
  unfold convertPrimitive.
  repeat (match goal with |- context [if ?b then _ else _] => destruct b end;
          try apply registers_ret).
  apply registers_resolve.
Qed.

Lemma registers_convertEnum enumType : registers (convertEnum enumType) [].
Proof.
  intros env a env' H. rewrite convertEnum_returns in H. injection H as _ <-. reflexivity.
Qed.

Lemma convertType_registers type :
  forall hasDefaultValue parentRecordType,
    registers (convertType type hasDefaultValue parentRecordType)
      (registrations type parentRecordType).
Proof.
  apply (schema_ind
    (fun t => forall hd p, registers (convertType t hd p) (registrations t p))
    (fun r => forall p, registers (convertRecord r p) (registrationsRecord r p))
    (fun f => forall p, registers (convertFieldDec f p) (registrationsField f p))).
  - intros s hd p. apply registers_convertPrimitive.
  - intros types IH hd p. rewrite convertType_union.
    apply registers_last.
    + change (registrations (TUnion types) p)
        with (flat_map (fun member => registrations member None) types).
      apply registers_mapM. eapply Forall_impl; [exact IH|]. cbv beta. intros t Ht.
      apply registers_last; [apply Ht | intros r; apply registers_ret].
    + intros names. apply registers_last; [|intros rs; apply registers_ret].
      apply registers_mapM_none. apply registers_resolve.
  - intros r IH hd p. exact (IH p).
  - intros items IH hd p. simpl. apply registers_last; [apply IH|].
    intros r. apply registers_last; [apply registers_resolve | intros x; apply registers_ret].
  - intros values IH hd p. simpl. apply registers_last; [apply IH|].
    intros r. apply registers_ret.
  - intros e hd p. apply registers_convertEnum.
  - intros precision scale hd p. apply registers_ret.
  - intros shape hd p env a env' H. simpl in H. injection H as _ <-. reflexivity.
  - intros name doc fields IH p env id env' Hrun.
    apply convertRecord_returns in Hrun as (-> & lines & env1 & Hlines & _ & _ & ->).
    change (registrationsRecord (mkRecord name doc fields) p)
      with (flat_map (fun field => registrationsField field (Some (mkRecord name doc fields)))
              fields ++ [(name, interfaceName (mkRecord name doc fields) p)]).
    rewrite register_app.
    rewrite <- (registers_mapM _ (fun field =>
                  registrationsField field (Some (mkRecord name doc fields))) fields
                  ltac:(eapply Forall_impl; [exact IH|]; cbv beta; intros f Hf; apply Hf)
                  env lines env1 Hlines).
    reflexivity.
  - intros name doc default ty IH p. rewrite convertFieldDec_unfold. simpl.
    apply registers_last; [apply IH|].
    intros r. apply registers_last; [apply registers_resolve | intros x; apply registers_ret].
Qed.

Lemma register_keeps table entries k :
  is_Some (table !! k) -> is_Some (register table entries !! k).
Proof.
  revert table. induction entries as [|[k' v'] entries IH]; intros table Hk; [exact Hk|].
  apply IH. simpl. case_decide; [exact Hk|].
  destruct (decide (k' = k)) as [->|Hne].
  - rewrite lookup_insert_eq. eauto.
  - rewrite lookup_insert_ne by assumption. exact Hk.
Qed.

Lemma register_lookup table entries k v :
  register table entries !! k = Some v -> table !! k = Some v \/ (k, v) ∈ entries.
Proof.
  revert table. induction entries as [|[k' v'] entries IH]; intros table Hk; [left; exact Hk|].
  apply IH in Hk as [Hk|Hk]; [|right; apply list_elem_of_further; exact Hk].
  simpl in Hk. case_decide; [left; exact Hk|].
  destruct (decide (k' = k)) as [->|Hne].
  - rewrite lookup_insert_eq in Hk. injection Hk as ->. right. apply list_elem_of_here.
  - rewrite lookup_insert_ne in Hk by assumption. left. exact Hk.
Qed.

Lemma register_last table entries k v :
  k <> "__proto__" -> register table (entries ++ [(k, v)]) !! k = Some v.
Proof.
  intros Hk. rewrite register_app. simpl. rewrite decide_False by exact Hk.
  apply lookup_insert_eq.
Qed.

(** The table after a translation that returns is the table before with
    one entry stored per record of the schema, a record's after those of the
    records nested in it: never an entry less, no value but the old ones and
    the schema's, and of two entries under one name the later.  The table is
    the module's: [avroToTypeScript] hands it on from one call to the next. *)
Theorem table_after_translation :
  (forall type hasDefaultValue parentRecordType env rendered env',
     convertType type hasDefaultValue parentRecordType env = Returns rendered env' ->
     interfaces env' = register (interfaces env) (registrations type parentRecordType)) /\
  (forall schema env text env',
     avroToTypeScript schema env = Returns text env' ->
     interfaces env' = register (interfaces env) (registrations (topLevel schema) None)) /\
  (forall first second env text1 env1 text2 env2,
     avroToTypeScript first env = Returns text1 env1 ->
     avroToTypeScript second env1 = Returns text2 env2 ->
     interfaces env2
     = register (interfaces env)
         (registrations (topLevel first) None ++ registrations (topLevel second) None)) /\
  (forall table entries k,
     is_Some (table !! k) -> is_Some (register table entries !! k)) /\
  (forall table entries k v,
     register table entries !! k = Some v -> table !! k = Some v \/ (k, v) ∈ entries) /\
  (forall table entries k v,
     k <> "__proto__" -> register table (entries ++ [(k, v)]) !! k = Some v).
Proof.
  assert (Htop : forall schema env text env',
     avroToTypeScript schema env = Returns text env' ->
     interfaces env' = register (interfaces env) (registrations (topLevel schema) None)).
  { intros schema env text env' Hrun. unfold avroToTypeScript in Hrun.
    apply bind_returns in Hrun as (id & env1 & Hrun & Hret). injection Hret as _ <-.
    destruct schema as [r|e].
    - exact (convertType_registers (TRecord r) false None _ _ _ Hrun).
    - exact (convertType_registers (TEnum e) false None _ _ _ Hrun). }
  split; [|split; [exact Htop|split; [|split; [|split]]]].
  - intros type hd p env rendered env' Hrun.
    exact (convertType_registers type hd p _ _ _ Hrun).
  - intros first second env text1 env1 text2 env2 H1 H2.
    rewrite (Htop _ _ _ _ H2), (Htop _ _ _ _ H1). symmetry. apply register_app.
  - exact register_keeps.
  - exact register_lookup.
  - exact register_last.
Qed.

(** ** What a translation reads *)

(** [fresh env] keeps the table and forgets buffer and console; [onto old e]
    puts what [e] holds after what [old] held.  [appendOnly m]: a run of [m]
    is its run on the fresh state, put onto the state it started from. *)
Definition fresh (env : Env) : Env := mkEnv (interfaces env) [] [].

Definition onto (old e : Env) : Env :=
  mkEnv (interfaces e) (buffer old ++ buffer e) (console old ++ console e).

Definition appendOnly {A} (m : Js A) : Prop :=
  forall env,
    m env = match m (fresh env) with
            | Returns a e => Returns a (onto env e)
            | Throws error => Throws error
            end.

Lemma onto_fresh env : onto env (fresh env) = env.
Proof. destruct env. unfold onto, fresh. simpl. rewrite !app_nil_r. reflexivity. Qed.

Lemma onto_onto env e1 e2 : onto (onto env e1) e2 = onto env (onto e1 e2).
Proof. unfold onto. simpl. rewrite !app_assoc. reflexivity. Qed.

Lemma appendOnly_ret {A} (a : A) : appendOnly (ret a).
Proof. intros env. unfold ret. rewrite onto_fresh. reflexivity. Qed.

Lemma appendOnly_bind {A B} (m : Js A) (k : A -> Js B) :
  appendOnly m -> (forall a, appendOnly (k a)) -> appendOnly (bind m k).
Proof.
  intros Hm Hk env. unfold bind. rewrite (Hm env).
  destruct (m (fresh env)) as [a e|error]; [|reflexivity].
  rewrite (Hk a (onto env e)), (Hk a e).
  change (fresh (onto env e)) with (fresh e).
  destruct (k a (fresh e)) as [b e2|error]; [|reflexivity].
  rewrite onto_onto. reflexivity.
Qed.

Lemma appendOnly_mapM {A B} (f : A -> Js B) (l : list A) :
  Forall (fun x => appendOnly (f x)) l -> appendOnly (mapM f l).
Proof.
  induction 1 as [|x l Hx _ IH]; simpl; [apply appendOnly_ret|].
  apply appendOnly_bind; [assumption|]. intros y.
  apply appendOnly_bind; [assumption|]. intros ys. apply appendOnly_ret.
Qed.

Lemma appendOnly_resolve name : appendOnly (resolve name).
Proof.
  intros env. unfold resolve, bind, hasOwnProperty. simpl.
  destruct (interfaces env !! "hasOwnProperty"); [reflexivity|].
  destruct (bool_decide _); unfold getInterface, ret; simpl;
    change (mkEnv (interfaces env) [] []) with (fresh env);
    rewrite onto_fresh; reflexivity.
Qed.

Lemma appendOnly_push block : appendOnly (push block).
Proof. intros env. unfold push, onto. simpl. rewrite app_nil_r. reflexivity. Qed.

Lemma appendOnly_consoleError type : appendOnly (consoleError type).
Proof. intros env. unfold consoleError, onto. simpl. rewrite app_nil_r. reflexivity. Qed.

Lemma appendOnly_setInterface k v : appendOnly (setInterface k v).
Proof.
  intros env. unfold setInterface. case_decide.
  - rewrite onto_fresh. reflexivity.
  - unfold onto. simpl. rewrite !app_nil_r. reflexivity.
Qed.

Lemma appendOnly_convertPrimitive avroType hasDefaultValue :
  appendOnly (convertPrimitive avroType hasDefaultValue).
Proof.
  unfold convertPrimitive.
  repeat (match goal with |- context [if ?b then _ else _] => destruct b end;
          try apply appendOnly_ret).
  apply appendOnly_resolve.
Qed.

Lemma convertType_appendOnly type :
  forall hasDefaultValue parentRecordType,
    appendOnly (convertType type hasDefaultValue parentRecordType).
Proof.
  apply (schema_ind
    (fun t => forall hd p, appendOnly (convertType t hd p))
    (fun r => forall p, appendOnly (convertRecord r p))
    (fun f => forall p, appendOnly (convertFieldDec f p))).
  - intros s hd p. apply appendOnly_convertPrimitive.
  - intros types IH hd p. rewrite convertType_union.
    apply appendOnly_bind.
    + apply appendOnly_mapM. eapply Forall_impl; [exact IH|]. cbv beta. intros t Ht.
      apply appendOnly_bind; [apply Ht | intros r; apply appendOnly_ret].
    + intros names. apply appendOnly_bind; [|intros rs; apply appendOnly_ret].
      apply appendOnly_mapM. apply Forall_forall. intros n _. apply appendOnly_resolve.
  - intros r IH hd p. exact (IH p).
  - intros items IH hd p. simpl. apply appendOnly_bind; [apply IH|].
    intros r. apply appendOnly_bind; [apply appendOnly_resolve|].
    intros x. apply appendOnly_ret.
  - intros values IH hd p. simpl. apply appendOnly_bind; [apply IH|].
    intros r. apply appendOnly_ret.
  - intros e hd p. simpl. unfold convertEnum.
    apply appendOnly_bind; [apply appendOnly_push | intros u; apply appendOnly_ret].
  - intros precision scale hd p. apply appendOnly_ret.
  - intros shape hd p. simpl.
    apply appendOnly_bind; [apply appendOnly_consoleError | intros u; apply appendOnly_ret].
  - intros name doc fields IH p. rewrite convertRecord_unfold.
    apply appendOnly_bind.
    + apply appendOnly_mapM. eapply Forall_impl; [exact IH|]. cbv beta. intros f Hf. apply Hf.
    + intros lines. apply appendOnly_bind; [apply appendOnly_push|]. intros u.
      apply appendOnly_bind; [apply appendOnly_setInterface|]. intros u'.
      apply appendOnly_ret.
  - intros name doc default ty IH p. rewrite convertFieldDec_unfold. simpl.
    apply appendOnly_bind; [apply IH|].
    intros r. apply appendOnly_bind; [apply appendOnly_resolve|].
    intros x. apply appendOnly_ret.
Qed.

(** The translator writes buffer and console and never reads them: a run
    from any state is the run from the same table with both empty, put after
    what was there.  So what was there stays, and the text and table of
    [avroToTypeScript] depend on the state it is called in through the table
    alone. *)
Theorem buffer_and_console_are_append_only :
  (forall type hasDefaultValue parentRecordType env,
     convertType type hasDefaultValue parentRecordType env
     = match convertType type hasDefaultValue parentRecordType (fresh env) with
       | Returns rendered e => Returns rendered (onto env e)
       | Throws error => Throws error
       end) /\
  (forall type hasDefaultValue parentRecordType env rendered env',
     convertType type hasDefaultValue parentRecordType env = Returns rendered env' ->
     exists blocks reports,
       buffer env' = buffer env ++ blocks /\ console env' = console env ++ reports) /\
  (forall schema env1 env2,
     interfaces env1 = interfaces env2 ->
     match avroToTypeScript schema env1, avroToTypeScript schema env2 with
     | Returns text1 e1, Returns text2 e2 =>
         text1 = text2 /\ interfaces e1 = interfaces e2 /\ buffer e1 = buffer e2
     | Throws error1, Throws error2 => error1 = error2
     | _, _ => False
     end).
Proof.
  split; [|split].
  - intros type hd p env. apply convertType_appendOnly.
  - intros type hd p env rendered env' Hrun.
    rewrite (convertType_appendOnly type hd p env) in Hrun.
    destruct (convertType type hd p (fresh env)) as [a e|error]; [|discriminate].
    injection Hrun as _ <-. exists (buffer e), (console e). split; reflexivity.
  - intros schema env1 env2 Htable. unfold avroToTypeScript, bind.
    assert (Hrun : forall env,
      match schema with
      | inl record => convertRecord record None
      | inr enumType => convertEnum enumType
      end (mkEnv (interfaces env) [] (console env))
      = match convertType (topLevel schema) false None (fresh env) with
        | Returns a e => Returns a (onto (mkEnv (interfaces env) [] (console env)) e)
        | Throws error => Throws error
        end).
    { intros env.
      transitivity (convertType (topLevel schema) false None
                      (mkEnv (interfaces env) [] (console env)));
        [destruct schema; reflexivity|].
      apply (convertType_appendOnly (topLevel schema) false None
               (mkEnv (interfaces env) [] (console env))). }
    rewrite (Hrun env1), (Hrun env2). unfold fresh. rewrite Htable.
    destruct (convertType (topLevel schema) false None (mkEnv (interfaces env2) [] []))
      as [a e|error]; [|reflexivity].
    simpl. repeat split; reflexivity.
Qed.

(** ** The order of the blocks *)

(** How the block of each record and enum of a schema starts, in the order
    the translator appends them: for a record, the blocks of its fields'
    types, then its own. *)
Fixpoint heads (t : AvroType) (parentRecordType : option RecordType) : list string :=
  match t with
  | TUnion types => flat_map (fun member => heads member None) types
  | TRecord r => headsRecord r parentRecordType
  | TArray items => heads items None
  | TMap values => heads values None
  | TEnum e => [document (edoc e) "" +:+ "export enum " +:+ ename e +:+ " {" +:+ LF]
  | _ => []
  end
with headsRecord (r : RecordType) (parentRecordType : option RecordType) : list string :=
  match r with
  | mkRecord _ doc fields =>
      flat_map (fun field => headsField field (Some r)) fields
      ++ [document doc "" +:+ "export interface " +:+ interfaceName r parentRecordType
          +:+ " {" +:+ LF]
  end
with headsField (f : Field) (parentRecordType : option RecordType) : list string :=
  match f with
  | mkField _ _ _ type => heads type parentRecordType
  end.

Definition startsWith (head block : string) : Prop := exists rest, block = head +:+ rest.

(** [emits m hs]: a run of [m] that returns has appended one block per
    element of [hs], each starting as that element says. *)
Definition emits {A} (m : Js A) (hs : list string) : Prop :=
  forall env a env', m env = Returns a env' ->
    exists blocks, buffer env' = buffer env ++ blocks /\ Forall2 startsWith hs blocks.

Lemma append_assoc (a b c : string) : (a +:+ b) +:+ c = a +:+ (b +:+ c).
Proof.
  induction a as [|x a IH]; [reflexivity|].
  change (String x ((a +:+ b) +:+ c) = String x (a +:+ (b +:+ c))).
  rewrite IH. reflexivity.
Qed.

Lemma startsWith_head (doc keyword name rest : string) :
  startsWith (doc +:+ keyword +:+ name +:+ " {" +:+ LF)
             (doc +:+ keyword +:+ name +:+ " {" +:+ LF +:+ rest).
Proof. exists rest. rewrite !append_assoc. reflexivity. Qed.

Lemma emits_ret {A} (a : A) : emits (ret a) [].
Proof.
  intros env b env' H. injection H as _ <-. exists []. rewrite app_nil_r.
  split; [reflexivity | constructor].
Qed.

Lemma emits_bind {A B} (m : Js A) (k : A -> Js B) hs1 hs2 :
  emits m hs1 -> (forall a, emits (k a) hs2) -> emits (bind m k) (hs1 ++ hs2).
Proof.
  intros Hm Hk env b env' H. apply bind_returns in H as (a & env1 & H1 & H2).
  destruct (Hm _ _ _ H1) as (blocks1 & Hb1 & Hs1).
  destruct (Hk _ _ _ _ H2) as (blocks2 & Hb2 & Hs2).
  exists (blocks1 ++ blocks2). split.
  - rewrite Hb2, Hb1, app_assoc. reflexivity.
  - apply Forall2_app; assumption.
Qed.

Lemma emits_last {A B} (m : Js A) (k : A -> Js B) hs :
  emits m hs -> (forall a, emits (k a) []) -> emits (bind m k) hs.
Proof. intros Hm Hk. rewrite <- (app_nil_r hs). apply emits_bind; assumption. Qed.

Lemma emits_mapM {A B} (f : A -> Js B) (g : A -> list string) (l : list A) :
  Forall (fun x => emits (f x) (g x)) l -> emits (mapM f l) (flat_map g l).
Proof.
  induction 1 as [|x l Hx _ IH]; simpl; [apply emits_ret|].
  apply emits_bind; [assumption|]. intros y.
  apply emits_last; [assumption|]. intros ys. apply emits_ret.
Qed.

Lemma emits_mapM_none {A B} (f : A -> Js B) (l : list A) :
  (forall x, emits (f x) []) -> emits (mapM f l) [].
Proof.
  intros Hf. induction l as [|x l IH]; simpl; [apply emits_ret|].
  apply emits_last; [apply Hf|]. intros y.
  apply emits_last; [assumption|]. intros ys. apply emits_ret.
Qed.

Lemma emits_unchanged {A} (m : Js A) :
  (forall env a env', m env = Returns a env' -> buffer env' = buffer env) -> emits m [].
Proof.
  intros Hm env a env' H. exists []. rewrite app_nil_r.
  split; [eapply Hm; eassumption | constructor].
Qed.

Lemma emits_resolve name : emits (resolve name) [].
Proof.
  apply emits_unchanged. intros env a env' H.
  apply resolve_returns in H as [_ ->]. reflexivity.
Qed.

Lemma emits_convertPrimitive avroType hasDefaultValue :
  emits (convertPrimitive avroType hasDefaultValue) [].
Proof.
  unfold convertPrimitive.
  repeat (match goal with |- context [if ?b then _ else _] => destruct b end;
          try apply emits_ret).
  apply emits_resolve.
Qed.

Lemma convertType_emits type :
  forall hasDefaultValue parentRecordType,
    emits (convertType type hasDefaultValue parentRecordType) (heads type parentRecordType).
Proof.
  apply (schema_ind
    (fun t => forall hd p, emits (convertType t hd p) (heads t p))
    (fun r => forall p, emits (convertRecord r p) (headsRecord r p))
    (fun f => forall p, emits (convertFieldDec f p) (headsField f p))).
  - intros s hd p. apply emits_convertPrimitive.
  - intros types IH hd p. rewrite convertType_union.
    apply emits_last.
    + change (heads (TUnion types) p) with (flat_map (fun member => heads member None) types).
      apply emits_mapM. eapply Forall_impl; [exact IH|]. cbv beta. intros t Ht.
      apply emits_last; [apply Ht | intros r; apply emits_ret].
    + intros names. apply emits_last; [|intros rs; apply emits_ret].
      apply emits_mapM_none. apply emits_resolve.
  - intros r IH hd p. exact (IH p).
  - intros items IH hd p. simpl. apply emits_last; [apply IH|].
    intros r. apply emits_last; [apply emits_resolve | intros x; apply emits_ret].
  - intros values IH hd p. simpl. apply emits_last; [apply IH|].
    intros r. apply emits_ret.
  - intros e hd p env a env' H.
    change (convertEnum e env = Returns a env') in H.
    rewrite convertEnum_returns in H. injection H as _ <-.
    eexists. split; [reflexivity|]. constructor; [|constructor].
    apply startsWith_head.
  - intros precision scale hd p. apply emits_ret.
  - intros shape hd p. apply emits_unchanged. intros env a env' H.
    simpl in H. injection H as _ <-. reflexivity.
  - intros name doc fields IH p env id env' Hrun.
    apply convertRecord_returns in Hrun as (-> & lines & env1 & Hlines & Hbuf & _).
    destruct (emits_mapM _ (fun field => headsField field (Some (mkRecord name doc fields)))
                fields ltac:(eapply Forall_impl; [exact IH|]; cbv beta; intros f Hf; apply Hf)
                env lines env1 Hlines) as (blocks & Hb & Hs).
    eexists. split; [rewrite Hbuf, Hb, <- app_assoc; reflexivity|].
    apply Forall2_app; [exact Hs|]. constructor; [|constructor].
    apply startsWith_head.
  - intros name doc default ty IH p. rewrite convertFieldDec_unfold. simpl.
    apply emits_last; [apply IH|].
    intros r. apply emits_last; [apply emits_resolve | intros x; apply emits_ret].
Qed.

(** The blocks of a translation that returns are those of the schema's
    records and enums, one each, those nested in a record before the
    record's own (so the text ends with the block of the top-level record),
    every one starting with its documentation and its declaration under the
    generated name. *)
Theorem blocks_follow_the_schema :
  (forall type hasDefaultValue parentRecordType env rendered env',
     convertType type hasDefaultValue parentRecordType env = Returns rendered env' ->
     exists blocks,
       buffer env' = buffer env ++ blocks /\
       Forall2 startsWith (heads type parentRecordType) blocks) /\
  (forall schema env text env',
     avroToTypeScript schema env = Returns text env' ->
     exists blocks,
       text = join LF blocks /\
       Forall2 startsWith (heads (topLevel schema) None) blocks).
Proof.
  split.
  - intros type hd p env rendered env' Hrun.
    exact (convertType_emits type hd p _ _ _ Hrun).
  - intros schema env text env' Hrun. unfold avroToTypeScript in Hrun.
    apply bind_returns in Hrun as (id & env1 & Hrun & Hret). injection Hret as <- <-.
    assert (Hemit : exists blocks,
              buffer env1 = [] ++ blocks /\
              Forall2 startsWith (heads (topLevel schema) None) blocks).
    { destruct schema as [r|e].
      - exact (convertType_emits (TRecord r) false None _ _ _ Hrun).
      - exact (convertType_emits (TEnum e) false None _ _ _ Hrun). }
    destruct Hemit as (blocks & Hb & Hs). exists blocks. rewrite Hb.
    split; [reflexivity | exact Hs].
Qed.

(** ** The members of a union *)

Lemma keepFirst_elem seen names n :
  n ∈ keepFirst seen names <-> n ∈ names /\ n ∉ seen.
Proof.
  revert seen. induction names as [|x names IH]; intros seen; simpl.
  - rewrite elem_of_nil. tauto.
  - case_bool_decide as Hseen.
    + rewrite IH, elem_of_cons. split; [tauto|].
      intros [[->|H] Hn]; [contradiction | tauto].
    + rewrite !elem_of_cons, IH, elem_of_app, list_elem_of_singleton.
      destruct (decide (n = x)) as [->|Hne]; tauto.
Qed.

Lemma keepFirst_NoDup seen names : NoDup (keepFirst seen names).
Proof.
  revert seen. induction names as [|x names IH]; intros seen; simpl; [constructor|].
  case_bool_decide as Hseen; [apply IH|].
  constructor; [|apply IH].
  rewrite keepFirst_elem, elem_of_app, list_elem_of_singleton. tauto.
Qed.

Lemma keepFirst_sublist seen names : sublist (keepFirst seen names) names.
Proof.
  revert seen. induction names as [|x names IH]; intros seen; simpl; [constructor|].
  case_bool_decide as Hseen; [apply sublist_cons | apply sublist_skip]; apply IH.
Qed.

Lemma mapM_length {A B} (f : A -> Js B) (l : list A) env ys env' :
  mapM f l env = Returns ys env' -> length ys = length l.
Proof.
  revert env ys env'. induction l as [|x l IH]; intros env ys env' H; simpl in H.
  - injection H as <- _. reflexivity.
  - apply bind_returns in H as (y & env1 & _ & H).
    apply bind_returns in H as (rest & env2 & Hrest & H).
    injection H as <- _. simpl. rewrite (IH _ _ _ Hrest). reflexivity.
Qed.

Lemma mapM_resolve_returns names env rs env' :
  mapM resolve names env = Returns rs env' ->
  rs = map (resolved (interfaces env)) names /\ env' = env.
Proof.
  revert rs env'. induction names as [|n names IH]; intros rs env' H; cbn [mapM] in H.
  - injection H as <- <-. split; reflexivity.
  - apply bind_returns in H as (r & e1 & Hr & H).
    apply resolve_returns in Hr as [-> ->].
    apply bind_returns in H as (rest & e2 & Hrest & H).
    apply IH in Hrest as [-> ->]. injection H as <- <-. split; reflexivity.
Qed.

(** What [.filter(isUnique)] keeps: every string of the array, once, in the
    array's order.  So the rendering of a union is the [" | "]-separated list
    of the different texts among its members' renderings, each stripped and
    resolved: every such text once, none else, in the members' order. *)
Theorem union_members_are_distinct :
  (forall names,
     NoDup (arrayFilter isUnique names) /\
     (forall n, n ∈ arrayFilter isUnique names <-> n ∈ names) /\
     sublist (arrayFilter isUnique names) names) /\
  (forall types hasDefaultValue parentRecordType env text env',
     convertType (TUnion types) hasDefaultValue parentRecordType env = Returns text env' ->
     exists rendered members,
       mapM (fun t => convertType t hasDefaultValue None) types env
         = Returns rendered env' /\
       text = join " | " members /\
       NoDup members /\
       (forall n,
          n ∈ members <->
          n ∈ map (fun r => resolved (interfaces env') (stripNamespace r)) rendered) /\
       sublist members
         (map (fun r => resolved (interfaces env') (stripNamespace r)) rendered)).
Proof.
  assert (Hfilter : forall names,
     NoDup (arrayFilter isUnique names) /\
     (forall n, n ∈ arrayFilter isUnique names <-> n ∈ names) /\
     sublist (arrayFilter isUnique names) names).
  { intros names. rewrite arrayFilter_isUnique.
    split; [apply keepFirst_NoDup|]. split; [|apply keepFirst_sublist].
    intros n. rewrite keepFirst_elem, elem_of_nil. tauto. }
  split; [exact Hfilter|].
  intros types hd p env text env' H. rewrite convertType_union in H.
  apply bind_returns in H as (names & env1 & Hnames & H).
  rewrite mapM_post in Hnames.
  apply bind_returns in Hnames as (rendered & env0 & Hrendered & Hret).
  injection Hret as <- <-.
  apply bind_returns in H as (rs & env2 & Hrs & H).
  apply mapM_resolve_returns in Hrs as [-> ->].
  injection H as <- <-.
  exists rendered, (arrayFilter isUnique
                      (map (resolved (interfaces env0)) (map stripNamespace rendered))).
  rewrite map_map.
  split; [exact Hrendered|]. split; [reflexivity|]. apply Hfilter.
Qed.

(** ** Names without their namespace *)

Lemma split_pieces sep s : Forall (fun piece => sep ∉ list_ascii_of_string piece) (split sep s).
Proof.
  induction s as [|c s IH]; cbn [split].
  - constructor; [|constructor]. cbn. apply not_elem_of_nil.
  - destruct (Ascii.eqb_spec c sep) as [->|Hne].
    + constructor; [cbn; apply not_elem_of_nil | exact IH].
    + destruct (split sep s) as [|piece pieces]; [repeat constructor|].
      * cbn. rewrite elem_of_cons, elem_of_nil. intros [Heq|[]]. congruence.
      * apply Forall_cons in IH as [Hpiece Hpieces]. constructor; [|exact Hpieces].
        cbn [list_ascii_of_string]. rewrite elem_of_cons. intros [Heq|Hin]; [congruence|].
        exact (Hpiece Hin).
Qed.

Lemma join_split sep s : join (String sep "") (split sep s) = s.
Proof.
  induction s as [|c s IH]; cbn [split]; [reflexivity|].
  pose proof (split_nonempty sep s) as Hne.
  destruct (Ascii.eqb_spec c sep) as [->|_].
  - destruct (split sep s) as [|piece pieces]; [contradiction|].
    cbn [join]. cbn [join] in IH. rewrite IH. reflexivity.
  - destruct (split sep s) as [|piece pieces]; [contradiction|].
    rewrite <- IH. destruct pieces; reflexivity.
Qed.

Lemma join_snoc sep l x : l <> [] -> join sep (l ++ [x]) = join sep l +:+ sep +:+ x.
Proof.
  induction l as [|a l IH]; intros Hne; [contradiction|].
  destruct l as [|b l]; [reflexivity|].
  change (a +:+ sep +:+ join sep ((b :: l) ++ [x])
          = (a +:+ sep +:+ join sep (b :: l)) +:+ sep +:+ x).
  rewrite IH by discriminate. rewrite !append_assoc. reflexivity.
Qed.

(** Splitting a name at its dots and joining the pieces with dots gives the
    name back; [stripNamespace] returns the last piece.  So for every name
    the result holds no dot, is the name itself or what follows a dot in
    it, and stripping it again changes nothing. *)
Theorem stripNamespace_is_the_last_piece name :
  join "." (split "." name) = name /\
  ("."%char ∉ list_ascii_of_string (stripNamespace name)) /\
  (name = stripNamespace name \/
   exists prefix, name = prefix +:+ "." +:+ stripNamespace name) /\
  stripNamespace (stripNamespace name) = stripNamespace name.
Proof.
  pose proof (join_split "." name) as Hjoin.
  pose proof (split_pieces "." name) as Hpieces.
  pose proof (split_nonempty "." name) as Hne.
  assert (Hlast : exists l, split "." name = l ++ [stripNamespace name]).
  { unfold stripNamespace, pop.
    destruct (split "." name) as [|a l] using rev_ind; [contradiction|].
    exists l. rewrite last_snoc. reflexivity. }
  destruct Hlast as (l & Hl).
  assert (Hdot : "."%char ∉ list_ascii_of_string (stripNamespace name)).
  { rewrite Hl in Hpieces. apply Forall_app in Hpieces as [_ Hx].
    apply Forall_cons in Hx as [Hx _]. exact Hx. }
  split; [exact Hjoin|]. split; [exact Hdot|]. split.
  - rewrite Hl in Hjoin. destruct l as [|a l].
    + left. symmetry. exact Hjoin.
    + right. exists (join "." (a :: l)). rewrite <- Hjoin at 1.
      apply join_snoc. discriminate.
  - apply stripNamespace_whole. exact Hdot.
Qed.

(** ** What [hasDefaultValue] changes *)

(** Whether a type names [null] outside the records it holds: the places
    the flag of the enclosing field reaches. *)
Fixpoint mentionsNull (t : AvroType) : bool :=
  match t with
  | TString s => String.eqb s "null"
  | TUnion types => existsb mentionsNull types
  | TArray items => mentionsNull items
  | TMap values => mentionsNull values
  | _ => false
  end.

Lemma mapM_ext {A B} (f g : A -> Js B) (l : list A) :
  Forall (fun x => forall env, f x env = g x env) l ->
  forall env, mapM f l env = mapM g l env.
Proof.
  induction 1 as [|x l Hx _ IH]; intros env; simpl; [reflexivity|].
  unfold bind. rewrite Hx. destruct (g x env) as [y env1|e]; [|reflexivity].
  rewrite IH. reflexivity.
Qed.

Lemma convertType_flag type :
  mentionsNull type = false ->
  forall hd1 hd2 parentRecordType env,
    convertType type hd1 parentRecordType env = convertType type hd2 parentRecordType env.
Proof.
  apply (schema_ind
    (fun t => mentionsNull t = false ->
              forall hd1 hd2 p env, convertType t hd1 p env = convertType t hd2 p env)
    (fun _ => True) (fun _ => True)); try (intros; exact I).
  - intros s Hs hd1 hd2 p env. simpl in Hs. simpl. unfold convertPrimitive.
    rewrite Hs. reflexivity.
  - intros types IH Hnull hd1 hd2 p env. rewrite !convertType_union.
    unfold bind at 1 3.
    rewrite (mapM_ext
               (fun t => r <- convertType t hd1 None ;; ret (stripNamespace r))
               (fun t => r <- convertType t hd2 None ;; ret (stripNamespace r))); [reflexivity|].
    change (existsb mentionsNull types = false) in Hnull.
    induction IH as [|t types Ht _ IHtypes]; [constructor|].
    simpl in Hnull. apply orb_false_iff in Hnull as [Hnt Hnts].
    constructor; [|apply IHtypes; exact Hnts].
    intros env0. unfold bind. rewrite (Ht Hnt hd1 hd2 None env0). reflexivity.
  - intros r _ _ hd1 hd2 p env. reflexivity.
  - intros items IH Hnull hd1 hd2 p env. simpl in Hnull. simpl.
    unfold bind at 1 3. rewrite (IH Hnull hd1 hd2 None env). reflexivity.
  - intros values IH Hnull hd1 hd2 p env. simpl in Hnull. simpl.
    unfold bind. rewrite (IH Hnull hd1 hd2 None env). reflexivity.
  - intros e _ hd1 hd2 p env. reflexivity.
  - intros precision scale _ hd1 hd2 p env. reflexivity.
  - intros shape _ hd1 hd2 p env. reflexivity.
Qed.

Lemma mentionsNull_isOptional type : mentionsNull type = false -> isOptional type = false.
Proof.
  destruct type as [s|types|r|items|values|e|precision scale|shape]; try (intros _; reflexivity).
  - intros H. exact H.
  - simpl. intros H. induction types as [|t types IH]; [reflexivity|].
    simpl in H. apply orb_false_iff in H as [Ht Hts]. simpl. rewrite (IH Hts), orb_false_r.
    destruct t; try reflexivity. exact Ht.
Qed.

(** [hasDefaultValue] matters to [null] alone: a type that names [null]
    nowhere outside the records it holds is translated the same with the
    flag and without it, in every state, and the line of a field of such a
    type is the same whatever default the field declares. *)
Theorem default_matters_to_null_alone :
  (forall type,
     mentionsNull type = false ->
     forall parentRecordType env,
       convertType type true parentRecordType env
       = convertType type false parentRecordType env) /\
  (forall name doc default1 default2 type,
     mentionsNull type = false ->
     forall parentRecordType env,
       convertFieldDec (mkField name doc default1 type) parentRecordType env
       = convertFieldDec (mkField name doc default2 type) parentRecordType env).
Proof.
  split.
  - intros type Hnull p env. apply convertType_flag. exact Hnull.
  - intros name doc d1 d2 type Hnull p env.
    rewrite !convertFieldDec_unfold. cbn [ftype fdefault fdoc fname].
    rewrite (mentionsNull_isOptional _ Hnull). cbn [andb].
    unfold bind at 1 3.
    rewrite (convertType_flag type Hnull (hasDefault d1) (hasDefault d2) p env).
    reflexivity.
Qed.

(** ** Unrecognized nodes in their place *)

Lemma mapM_app {A B} (f : A -> Js B) l1 l2 env ys1 env1 ys2 env2 :
  mapM f l1 env = Returns ys1 env1 -> mapM f l2 env1 = Returns ys2 env2 ->
  mapM f (l1 ++ l2) env = Returns (ys1 ++ ys2) env2.
Proof.
  revert env ys1. induction l1 as [|x l1 IH]; intros env ys1 H1 H2.
  - injection H1 as <- <-. exact H2.
  - cbn [mapM] in H1. apply bind_returns in H1 as (y & e & Hy & H1).
    apply bind_returns in H1 as (ys & e' & Hys & H1). injection H1 as <- <-.
    change ((x :: l1) ++ l2) with (x :: (l1 ++ l2)). cbn [mapM].
    rewrite (bind_step _ _ _ _ _ Hy), (bind_step _ _ _ _ _ (IH _ _ Hys H2)).
    reflexivity.
Qed.

Lemma convertFieldDec_unknown name doc default shape parentRecordType env :
  plain env -> interfaces env !! "UNKNOWN" = None ->
  convertFieldDec (mkField name doc default (TOther shape)) parentRecordType env
  = Returns (document doc TAB +:+ TAB +:+ name +:+ ": UNKNOWN;")
      (mkEnv (interfaces env) (buffer env) (console env ++ [TOther shape])).
Proof.
  intros Hp Hun. rewrite convertFieldDec_unfold. cbn [ftype fdefault fdoc fname].
  set (env1 := mkEnv (interfaces env) (buffer env) (console env ++ [TOther shape])).
  rewrite (bind_step _ _ env "UNKNOWN" env1) by reflexivity.
  rewrite (bind_step _ _ _ _ _ (resolve_plain "UNKNOWN" env1 Hp)).
  unfold ret, resolved. simpl interfaces. rewrite Hun. reflexivity.
Qed.

Lemma convertType_union_plain types hasDefaultValue parentRecordType env rendered env1 :
  mapM (fun t => convertType t hasDefaultValue None) types env = Returns rendered env1 ->
  plain env1 ->
  convertType (TUnion types) hasDefaultValue parentRecordType env
  = Returns (unionOf (interfaces env1) rendered) env1.
Proof.
  intros Hmembers Hp. rewrite convertType_union.
  unfold bind at 1. rewrite mapM_post. rewrite (bind_step _ _ _ _ _ Hmembers).
  unfold ret at 1.
  rewrite (bind_step _ _ _ _ _ (mapM_resolve_plain _ _ Hp)).
  unfold ret, unionOf. rewrite arrayFilter_isUnique. reflexivity.
Qed.

Lemma convertRecord_around name doc before fieldName fieldDoc default shape after
    parentRecordType env lines1 env1 lines2 env2 :
  let recordType :=
    mkRecord name doc (before ++ mkField fieldName fieldDoc default (TOther shape) :: after) in
  mapM (fun field => convertFieldDec field (Some recordType)) before env
    = Returns lines1 env1 ->
  plain env1 -> interfaces env1 !! "UNKNOWN" = None ->
  mapM (fun field => convertFieldDec field (Some recordType)) after
    (mkEnv (interfaces env1) (buffer env1) (console env1 ++ [TOther shape]))
    = Returns lines2 env2 ->
  convertRecord recordType parentRecordType env
  = Returns (interfaceName recordType parentRecordType)
      (mkEnv (if decide (name = "__proto__") then interfaces env2
              else <[name := interfaceName recordType parentRecordType]> (interfaces env2))
         (buffer env2 ++
            [document doc "" +:+ "export interface "
             +:+ interfaceName recordType parentRecordType +:+ " {" +:+ LF
             +:+ join LF (lines1
                          ++ (document fieldDoc TAB +:+ TAB +:+ fieldName +:+ ": UNKNOWN;")
                             :: lines2)
             +:+ LF +:+ "}" +:+ LF])
         (console env2)).
Proof.
  intros recordType Hbefore Hp Hun Hafter.
  rewrite convertRecord_unfold. cbn [rfields recordType].
  assert (Hhere : mapM (fun field => convertFieldDec field (Some recordType))
                    [mkField fieldName fieldDoc default (TOther shape)] env1
                  = Returns [document fieldDoc TAB +:+ TAB +:+ fieldName +:+ ": UNKNOWN;"]
                      (mkEnv (interfaces env1) (buffer env1)
                         (console env1 ++ [TOther shape]))).
  { cbn [mapM].
    rewrite (bind_step _ _ _ _ _ (convertFieldDec_unknown _ _ _ _ _ _ Hp Hun)).
    reflexivity. }
  pose proof (mapM_app _ _ _ _ _ _ _ _ Hbefore (mapM_app _ _ _ _ _ _ _ _ Hhere Hafter))
    as Hall.
  cbn [app] in Hall. rewrite (bind_step _ _ _ _ _ Hall).
  unfold bind, push, setInterface, ret. change (rname recordType) with name.
  destruct (decide (name = "__proto__")); reflexivity.
Qed.

(** C9.  A node of unrecognized shape is translated without an exception,
    in any state: [UNKNOWN] comes back and the node is reported on the
    console, table and buffer untouched.  The sentinel stands where the type
    was: as the type in the line of a field, as the element of an array, as
    the value type of a map, as the member of a union; and what stands
    around it is translated as it is: the block of a record with such a
    field holds the lines of the fields before it, the line with [UNKNOWN],
    and the lines of the fields after it, and the text returned ends with
    that block.  Such nodes never decide whether a translation returns: with
    every one of them replaced by a recognized node, the translation of a
    schema returns or raises as before, with the same table and as many
    blocks.  And a schema is translated to its end (when no record is named
    [hasOwnProperty], the one name that makes the table's lookups raise):
    each unrecognized node is reported in turn, each record and enum gets
    its block under its declaration, and the text returned is those blocks
    joined. *)
Theorem unrecognized_shape_is_not_fatal :
  (forall shape hasDefaultValue parentRecordType env,
     convertType (TOther shape) hasDefaultValue parentRecordType env
     = Returns "UNKNOWN"
         (mkEnv (interfaces env) (buffer env) (console env ++ [TOther shape]))) /\
  (forall shape parentRecordType env name doc default,
     plain env -> interfaces env !! "UNKNOWN" = None ->
     convertFieldDec (mkField name doc default (TOther shape)) parentRecordType env
     = Returns (document doc TAB +:+ TAB +:+ name +:+ ": UNKNOWN;")
         (mkEnv (interfaces env) (buffer env) (console env ++ [TOther shape]))) /\
  (forall shape hasDefaultValue parentRecordType env,
     plain env -> interfaces env !! "UNKNOWN" = None ->
     convertType (TArray (TOther shape)) hasDefaultValue parentRecordType env
     = Returns "UNKNOWN[]"
         (mkEnv (interfaces env) (buffer env) (console env ++ [TOther shape]))) /\
  (forall shape hasDefaultValue parentRecordType env,
     convertType (TMap (TOther shape)) hasDefaultValue parentRecordType env
     = Returns "{ [key: string]: UNKNOWN }"
         (mkEnv (interfaces env) (buffer env) (console env ++ [TOther shape]))) /\
  (forall before shape after hasDefaultValue parentRecordType env
          rendered1 env1 rendered2 env2,
     mapM (fun t => convertType t hasDefaultValue None) before env
       = Returns rendered1 env1 ->
     mapM (fun t => convertType t hasDefaultValue None) after
       (mkEnv (interfaces env1) (buffer env1) (console env1 ++ [TOther shape]))
       = Returns rendered2 env2 ->
     plain env2 ->
     convertType (TUnion (before ++ TOther shape :: after)) hasDefaultValue
       parentRecordType env
     = Returns (unionOf (interfaces env2) (rendered1 ++ "UNKNOWN" :: rendered2)) env2) /\
  (forall name doc before fieldName fieldDoc default shape after
          parentRecordType env lines1 env1 lines2 env2,
     let recordType :=
       mkRecord name doc
         (before ++ mkField fieldName fieldDoc default (TOther shape) :: after) in
     mapM (fun field => convertFieldDec field (Some recordType)) before env
       = Returns lines1 env1 ->
     plain env1 -> interfaces env1 !! "UNKNOWN" = None ->
     mapM (fun field => convertFieldDec field (Some recordType)) after
       (mkEnv (interfaces env1) (buffer env1) (console env1 ++ [TOther shape]))
       = Returns lines2 env2 ->
     convertRecord recordType parentRecordType env
     = Returns (interfaceName recordType parentRecordType)
         (mkEnv (if decide (name = "__proto__") then interfaces env2
                 else <[name := interfaceName recordType parentRecordType]>
                        (interfaces env2))
            (buffer env2 ++
               [document doc "" +:+ "export interface "
                +:+ interfaceName recordType parentRecordType +:+ " {" +:+ LF
                +:+ join LF (lines1
                             ++ (document fieldDoc TAB +:+ TAB +:+ fieldName
                                 +:+ ": UNKNOWN;") :: lines2)
                +:+ LF +:+ "}" +:+ LF])
            (console env2))) /\
  (forall name doc before fieldName fieldDoc default shape after
          env lines1 env1 lines2 env2,
     let recordType :=
       mkRecord name doc
         (before ++ mkField fieldName fieldDoc default (TOther shape) :: after) in
     mapM (fun field => convertFieldDec field (Some recordType)) before
       (mkEnv (interfaces env) [] (console env))
       = Returns lines1 env1 ->
     plain env1 -> interfaces env1 !! "UNKNOWN" = None ->
     mapM (fun field => convertFieldDec field (Some recordType)) after
       (mkEnv (interfaces env1) (buffer env1) (console env1 ++ [TOther shape]))
       = Returns lines2 env2 ->
     avroToTypeScript (inl recordType) env
     = Returns
         (join LF
            (buffer env2 ++
               [document doc "" +:+ "export interface "
                +:+ ("I" +:+ stripNamespace name) +:+ " {" +:+ LF
                +:+ join LF (lines1
                             ++ (document fieldDoc TAB +:+ TAB +:+ fieldName
                                 +:+ ": UNKNOWN;") :: lines2)
                +:+ LF +:+ "}" +:+ LF]))
         (mkEnv (if decide (name = "__proto__") then interfaces env2
                 else <[name := "I" +:+ stripNamespace name]> (interfaces env2))
            (buffer env2 ++
               [document doc "" +:+ "export interface "
                +:+ ("I" +:+ stripNamespace name) +:+ " {" +:+ LF
                +:+ join LF (lines1
                             ++ (document fieldDoc TAB +:+ TAB +:+ fieldName
                                 +:+ ": UNKNOWN;") :: lines2)
                +:+ LF +:+ "}" +:+ LF])
            (console env2))) /\
  (forall schema env,
     unrecognized (topLevel (recognizedSchema schema)) = [] /\
     sameFate anyValue (avroToTypeScript schema env)
       (avroToTypeScript (recognizedSchema schema) env)) /\
  (forall schema env,
     declares "hasOwnProperty" (topLevel schema) = false -> plain env ->
     exists text env',
       avroToTypeScript schema env = Returns text env' /\
       console env' = console env ++ unrecognized (topLevel schema) /\
       length (buffer env') = declarations (topLevel schema) /\
       Forall2 startsWith (heads (topLevel schema) None) (buffer env') /\
       text = join LF (buffer env')).
Proof.
  split; [reflexivity|].
  split; [intros shape p env name doc default Hp Hun; apply convertFieldDec_unknown; assumption|].
  split; [|split; [reflexivity|split; [|split; [|split; [|split]]]]].
  - intros shape hd p env Hp Hun.
    set (env1 := mkEnv (interfaces env) (buffer env) (console env ++ [TOther shape])).
    change (convertType (TArray (TOther shape)) hd p)
      with (r <- convertType (TOther shape) hd None ;;
            properName <- resolve (stripNamespace r) ;;
            ret (if isUnion properName then "Array<" +:+ properName +:+ ">"
                 else properName +:+ "[]")).
    rewrite (bind_step _ _ env "UNKNOWN" env1) by reflexivity.
    change (stripNamespace "UNKNOWN") with "UNKNOWN".
    rewrite (bind_step _ _ _ _ _ (resolve_plain "UNKNOWN" env1 Hp)).
    unfold ret, resolved. simpl interfaces. rewrite Hun. reflexivity.
  - intros before shape after hd p env r1 env1 r2 env2 Hbefore Hafter Hp.
    apply convertType_union_plain; [|exact Hp].
    apply (mapM_app _ before (TOther shape :: after) env r1 env1); [exact Hbefore|].
    cbn [mapM].
    rewrite (bind_step _ _ env1 "UNKNOWN"
               (mkEnv (interfaces env1) (buffer env1) (console env1 ++ [TOther shape])))
      by reflexivity.
    rewrite (bind_step _ _ _ _ _ Hafter). reflexivity.
  - intros name doc before fieldName fieldDoc default shape after p env
      lines1 env1 lines2 env2 recordType.
    apply convertRecord_around.
  - intros name doc before fieldName fieldDoc default shape after env
      lines1 env1 lines2 env2 recordType Hbefore Hp Hun Hafter.
    unfold avroToTypeScript.
    rewrite (bind_step _ _ _ _ _
               (convertRecord_around name doc before fieldName fieldDoc default shape after
                  None _ lines1 env1 lines2 env2 Hbefore Hp Hun Hafter)).
    reflexivity.
  - intros schema env. split.
    + destruct schema as [r|e]; [|reflexivity].
      exact (recognized_all (TRecord r)).
    + unfold avroToTypeScript.
      eapply (sameFate_bind anyValue anyValue).
      * destruct schema as [r|e].
        -- apply (convertType_recognized (TRecord r) false None None);
             [reflexivity | split; reflexivity].
        -- apply (convertType_recognized (TEnum e) false None None);
             [reflexivity | split; reflexivity].
      * intros a b e1 e2 _ Ha. split; [exact I | exact Ha].
  - intros schema env Hd Hp.
    assert (Hrun : runs (convertType (topLevel schema) false None)
                     (mkEnv (interfaces env) [] (console env))
                     (unrecognized (topLevel schema)) (declarations (topLevel schema)))
      by (apply convertType_runs; assumption).
    destruct Hrun as (id & env' & Hrun & _ & Hconsole & Hbuffer).
    destruct (convertType_emits (topLevel schema) false None _ _ _ Hrun)
      as (blocks & Hblocks & Hheads).
    cbn [buffer app] in Hblocks.
    exists (join LF (buffer env')), env'.
    split; [|split; [exact Hconsole|split; [exact Hbuffer|split; [|reflexivity]]]].
    + unfold avroToTypeScript. destruct schema; simpl in Hrun;
        rewrite (bind_step _ _ _ _ _ Hrun); reflexivity.
    + rewrite Hblocks. exact Hheads.
Qed.

End Translator.

(** ** The earlier translator, whole

    [index.ts] before [hasDefaultValue] and the logical decimal types: the
    record at the root of a chain of nested records is handed down to the
    fields of every record of the chain, an enum takes the name of the root
    it is reached under, [null] is always [null | undefined], and a field is
    optional whenever its type is.  It shares [stripNamespace], the naming
    and the layout of a record's block, and the lookups with the translator
    above. *)
Module Earlier.

Section EarlierTranslator.

Variable createDocumentation : option string -> Z -> string -> string.

(** Convert a primitive type from avro to TypeScript. *)
Definition convertPrimitive (avroType : string) : Js string :=
  if String.eqb avroType "long" || String.eqb avroType "int"
     || String.eqb avroType "double" || String.eqb avroType "float"
  then ret "number"
  else if String.eqb avroType "bytes" then ret "Buffer"
  else if String.eqb avroType "null" then ret "null | undefined"
  else if String.eqb avroType "boolean" then ret "boolean"
  else
    let cleanName := stripNamespace avroType in
    resolve cleanName.

Fixpoint convertType (type : AvroType) (rootRecordType : option RecordType)
    {struct type} : Js string :=
  match type with
  | TString s => convertPrimitive s
  | TUnion types =>
      names <- (fix members (ts : list AvroType) : Js (list string) :=
                  match ts with
                  | [] => ret []
                  | t :: rest =>
                      n <- (r <- convertType t None ;; ret (stripNamespace r)) ;;
                      ns <- members rest ;;
                      ret (n :: ns)
                  end) types ;;
      resolved <- mapM resolve names ;;
      ret (join " | " (arrayFilter isUnique resolved))
  | TRecord r => convertRecord r rootRecordType
  | TArray items =>
      r <- convertType items None ;;
      let name := stripNamespace r in
      properName <- resolve name ;;
      ret (if isUnion properName then "Array<" +:+ properName +:+ ">"
           else properName +:+ "[]")
  | TMap values =>
      r <- convertType values None ;;
      ret ("{ [key: string]: " +:+ r +:+ " }")
  | TEnum e => IndexTs.convertEnum createDocumentation e rootRecordType
  | TLogicalDecimal _ _ | TOther _ => consoleError type ;;; ret "UNKNOWN"
  end
with convertRecord (recordType : RecordType) (rootRecordType : option RecordType)
    {struct recordType} : Js string :=
  match recordType with
  | mkRecord name rdoc fields =>
      let doc := document createDocumentation rdoc "" in
      let cleanName := interfaceName recordType rootRecordType in
      let rootRecordType := default recordType rootRecordType in
      lines <- (fix declarations (fs : list Field) : Js (list string) :=
                  match fs with
                  | [] => ret []
                  | field :: rest =>
                      l <- convertFieldDec field (Some rootRecordType) ;;
                      ls <- declarations rest ;;
                      ret (l :: ls)
                  end) fields ;;
      push (interfaceDef doc cleanName lines) ;;;
      setInterface name cleanName ;;;
      ret cleanName
  end
with convertFieldDec (field : Field) (rootRecordType : option RecordType)
    {struct field} : Js string :=
  match field with
  | mkField name fdoc _ ftype =>
      let doc := document createDocumentation fdoc TAB in
      type <- convertType ftype rootRecordType ;;
      replacedType <- resolve type ;;
      ret (fieldLine doc name (isOptional ftype) replacedType)
  end.

(** Converts an Avro record type to a TypeScript file. *)
Definition avroToTypeScript (recordType : RecordType + EnumType) : Js string :=
  fun env =>
    let output := [] in
    bind (match recordType with
          | inr enumType => IndexTs.convertEnum createDocumentation enumType None
          | inl record => convertRecord record None
          end)
         (fun _ env' => Returns (join LF (buffer env')) env')
         (mkEnv (interfaces env) output (console env)).

(** The entries the earlier translator stores: as [registrations], but the
    fields of a record reached under a root keep that root. *)
Fixpoint registrations (t : AvroType) (rootRecordType : option RecordType)
    : list (string * string) :=
  match t with
  | TUnion types => flat_map (fun member => registrations member None) types
  | TRecord r => registrationsRecord r rootRecordType
  | TArray items => registrations items None
  | TMap values => registrations values None
  | _ => []
  end
with registrationsRecord (r : RecordType) (rootRecordType : option RecordType)
    : list (string * string) :=
  match r with
  | mkRecord name _ fields =>
      flat_map (fun field => registrationsField field (Some (default r rootRecordType))) fields
      ++ [(name, interfaceName r rootRecordType)]
  end
with registrationsField (f : Field) (rootRecordType : option RecordType)
    : list (string * string) :=
  match f with
  | mkField _ _ _ type => registrations type rootRecordType
  end.

(** Where the two translators do the same: no logical decimal type, no
    field with a default that counts, and, where the root handed down by the
    one and the parent handed down by the other differ, the same generated
    name for a record and no prefix for an enum. *)
Fixpoint shared (t : AvroType) (rootRecordType parentRecordType : option RecordType) : bool :=
  match t with
  | TString _ | TOther _ => true
  | TUnion types => forallb (fun member => shared member None None) types
  | TRecord r => sharedRecord r rootRecordType parentRecordType
  | TArray items => shared items None None
  | TMap values => shared values None None
  | TEnum e =>
      match rootRecordType with
      | Some root => String.eqb (rname root +:+ ename e) (ename e)
      | None => true
      end
  | TLogicalDecimal _ _ => false
  end
with sharedRecord (r : RecordType) (rootRecordType parentRecordType : option RecordType) : bool :=
  match r with
  | mkRecord _ _ fields =>
      String.eqb (interfaceName r rootRecordType) (interfaceName r parentRecordType)
      && forallb (fun field => sharedField field (Some (default r rootRecordType)) (Some r)) fields
  end
with sharedField (f : Field) (rootRecordType parentRecordType : option RecordType) : bool :=
  match f with
  | mkField _ _ default type =>
      negb (hasDefault default) && shared type rootRecordType parentRecordType
  end.

Lemma union_unfold types rootRecordType :
  convertType (TUnion types) rootRecordType =
  (names <- mapM (fun t => r <- convertType t None ;; ret (stripNamespace r)) types ;;
   rs <- mapM resolve names ;;
   ret (join " | " (arrayFilter isUnique rs))).
Proof.
  simpl. f_equal.
  induction types as [|t types IH]; simpl; [reflexivity|].
  rewrite IH. reflexivity.
Qed.

Lemma record_unfold recordType rootRecordType :
  convertRecord recordType rootRecordType =
  (lines <- mapM (fun field => convertFieldDec field (Some (default recordType rootRecordType)))
              (rfields recordType) ;;
   push (interfaceDef (document createDocumentation (rdoc recordType) "")
           (interfaceName recordType rootRecordType) lines) ;;;
   setInterface (rname recordType) (interfaceName recordType rootRecordType) ;;;
   ret (interfaceName recordType rootRecordType)).
Proof.
  destruct recordType as [name doc fields]. simpl. f_equal.
  generalize (default (mkRecord name doc fields) rootRecordType). intros root.
  induction fields as [|f fields IH]; simpl; [reflexivity|].
  rewrite IH. reflexivity.
Qed.

Lemma field_unfold field rootRecordType :
  convertFieldDec field rootRecordType =
  (type <- convertType (ftype field) rootRecordType ;;
   replacedType <- resolve type ;;
   ret (fieldLine (document createDocumentation (fdoc field) TAB) (fname field)
          (isOptional (ftype field)) replacedType)).
Proof. destruct field. reflexivity. Qed.

Lemma registers_primitive avroType : registers (convertPrimitive avroType) [].
Proof.
  unfold convertPrimitive.
  repeat (match goal with |- context [if ?b then _ else _] => destruct b end;
          try apply registers_ret).
  apply registers_resolve.
Qed.

Lemma registers_unchanged {A} (m : Js A) :
  (forall env a env', m env = Returns a env' -> interfaces env' = interfaces env) ->
  registers m [].
Proof. intros Hm env a env' H. simpl. eapply Hm. eassumption. Qed.

Lemma registers_convertType type :
  forall rootRecordType,
    registers (convertType type rootRecordType) (registrations type rootRecordType).
Proof.
  apply (schema_ind
    (fun t => forall root, registers (convertType t root) (registrations t root))
    (fun r => forall root, registers (convertRecord r root) (registrationsRecord r root))
    (fun f => forall root, registers (convertFieldDec f root) (registrationsField f root))).
  - intros s root. apply registers_primitive.
  - intros types IH root. rewrite union_unfold.
    apply registers_last.
    + change (registrations (TUnion types) root)
        with (flat_map (fun member => registrations member None) types).
      apply registers_mapM. eapply Forall_impl; [exact IH|]. cbv beta. intros t Ht.
      apply registers_last; [apply Ht | intros r; apply registers_ret].
    + intros names. apply registers_last; [|intros rs; apply registers_ret].
      apply registers_mapM_none. apply registers_resolve.
  - intros r IH root. exact (IH root).
  - intros items IH root. simpl. apply registers_last; [apply IH|].
    intros r. apply registers_last; [apply registers_resolve | intros x; apply registers_ret].
  - intros values IH root. simpl. apply registers_last; [apply IH|].
    intros r. apply registers_ret.
  - intros e root. apply registers_unchanged. intros env a env' H.
    simpl in H. unfold IndexTs.convertEnum, bind, push, ret in H.
    injection H as _ <-. reflexivity.
  - intros precision scale root. apply registers_unchanged. intros env a env' H.
    simpl in H. injection H as _ <-. reflexivity.
  - intros shape root. apply registers_unchanged. intros env a env' H.
    simpl in H. injection H as _ <-. reflexivity.
  - intros name doc fields IH root. rewrite record_unfold.
    change (registrationsRecord (mkRecord name doc fields) root)
      with (flat_map (fun field => registrationsField field
                                     (Some (default (mkRecord name doc fields) root))) fields
            ++ [(name, interfaceName (mkRecord name doc fields) root)]).
    apply registers_bind.
    + apply registers_mapM. eapply Forall_impl; [exact IH|]. cbv beta. intros f Hf. apply Hf.
    + intros lines env a env' H. unfold bind, push, setInterface, ret in H.
      cbn [rname interfaces buffer console] in H. simpl.
      case_decide; injection H as _ <-; reflexivity.
  - intros name doc default ty IH root. rewrite field_unfold. simpl.
    apply registers_last; [apply IH|].
    intros r. apply registers_last; [apply registers_resolve | intros x; apply registers_ret].
Qed.

End EarlierTranslator.

End Earlier.

(** ** The two translators side by side *)

Section TwoTranslators.

Variable createDocumentation : option string -> Z -> string -> string.

Lemma register_skip table entries k :
  k ∉ entries.*1 -> register table entries !! k = table !! k.
Proof.
  revert table. induction entries as [|[k' v'] entries IH]; intros table Hk; [reflexivity|].
  cbn [fmap list_fmap fst] in Hk. apply not_elem_of_cons in Hk as [Hne Hk].
  change (register table ((k', v') :: entries))
    with (register (if decide (k' = "__proto__") then table else <[k' := v']> table) entries).
  rewrite (IH _ Hk). case_decide; [reflexivity|].
  apply lookup_insert_ne. congruence.
Qed.

Lemma register_chain table nested inner middle outer (v vm vo : string) :
  inner <> "__proto__" -> inner <> middle -> inner <> outer ->
  register table (nested ++ [(inner, v); (middle, vm); (outer, vo)]) !! inner = Some v.
Proof.
  intros Hproto Hmiddle Houter.
  change (nested ++ [(inner, v); (middle, vm); (outer, vo)])
    with (nested ++ [(inner, v)] ++ [(middle, vm); (outer, vo)]).
  rewrite app_assoc, register_app, register_skip.
  - apply register_last. exact Hproto.
  - cbn. rewrite !not_elem_of_cons. repeat split; [congruence | congruence |].
    apply not_elem_of_nil.
Qed.

(** In the earlier translator a record reached through fields alone is
    named after the record the chain starts at, however deep it sits: the
    table after a translation that returns holds, for each record of the
    schema, its generated name under the root it was reached under, a
    record's entry after those of the records nested in it.  For a record in
    a record in a record the innermost is registered under the outermost's
    name, where the translator with [hasDefaultValue] registers it under the
    middle one's. *)
Theorem earlier_names_follow_the_root :
  (forall type rootRecordType env rendered env',
     Earlier.convertType createDocumentation type rootRecordType env = Returns rendered env' ->
     interfaces env' = register (interfaces env) (Earlier.registrations type rootRecordType)) /\
  (forall schema env text env',
     Earlier.avroToTypeScript createDocumentation schema env = Returns text env' ->
     interfaces env' = register (interfaces env) (Earlier.registrations (topLevel schema) None)) /\
  (forall inner middleName middleDoc name2 doc2 default2 outerName outerDoc name1 doc1 default1,
     let middle :=
       mkRecord middleName middleDoc [mkField name2 doc2 default2 (TRecord inner)] in
     let outer :=
       mkRecord outerName outerDoc [mkField name1 doc1 default1 (TRecord middle)] in
     rname inner <> "__proto__" -> rname inner <> middleName -> rname inner <> outerName ->
     (forall env rendered env',
        Earlier.convertType createDocumentation (TRecord outer) None env = Returns rendered env' ->
        interfaces env' !! rname inner
        = Some ("I" +:+ stripNamespace outerName +:+ stripNamespace (rname inner))) /\
     (forall hasDefaultValue env rendered env',
        convertType createDocumentation (TRecord outer) hasDefaultValue None env
          = Returns rendered env' ->
        interfaces env' !! rname inner
        = Some ("I" +:+ stripNamespace middleName +:+ stripNamespace (rname inner)))).
Proof.
  split; [|split].
  - intros type root env rendered env' Hrun.
    exact (Earlier.registers_convertType createDocumentation type root _ _ _ Hrun).
  - intros schema env text env' Hrun. unfold Earlier.avroToTypeScript in Hrun.
    apply bind_returns in Hrun as (id & env1 & Hrun & Hret). injection Hret as _ <-.
    destruct schema as [r|e].
    + exact (Earlier.registers_convertType createDocumentation (TRecord r) None _ _ _ Hrun).
    + exact (Earlier.registers_convertType createDocumentation (TEnum e) None _ _ _ Hrun).
  - intros inner mname mdoc name2 doc2 default2 oname odoc name1 doc1 default1 middle outer
      Hproto Hmiddle Houter.
    subst middle outer. destruct inner as [iname idoc ifields]. cbn [rname] in *.
    split.
    + intros env rendered env' Hrun.
      rewrite (Earlier.registers_convertType createDocumentation _ None _ _ _ Hrun).
      cbn [Earlier.registrations Earlier.registrationsRecord Earlier.registrationsField
           flat_map rname default from_option id].
      rewrite !app_nil_r, <- !app_assoc. cbn [app].
      apply register_chain; assumption.
    + intros hd env rendered env' Hrun.
      rewrite (convertType_registers createDocumentation _ hd None _ _ _ Hrun).
      cbn [registrations registrationsRecord registrationsField
           flat_map rname].
      rewrite !app_nil_r, <- !app_assoc. cbn [app].
      apply register_chain; assumption.
Qed.

Lemma convertPrimitive_shared avroType env :
  Earlier.convertPrimitive avroType env = convertPrimitive avroType false env.
Proof. reflexivity. Qed.

Lemma convertType_shared type :
  forall rootRecordType parentRecordType,
    Earlier.shared type rootRecordType parentRecordType = true ->
    forall env,
      Earlier.convertType createDocumentation type rootRecordType env
      = convertType createDocumentation type false parentRecordType env.
Proof.
  apply (schema_ind
    (fun t => forall root parent, Earlier.shared t root parent = true ->
       forall env, Earlier.convertType createDocumentation t root env
                   = convertType createDocumentation t false parent env)
    (fun r => forall root parent, Earlier.sharedRecord r root parent = true ->
       forall env, Earlier.convertRecord createDocumentation r root env
                   = convertRecord createDocumentation r parent env)
    (fun f => forall root parent, Earlier.sharedField f root parent = true ->
       forall env, Earlier.convertFieldDec createDocumentation f root env
                   = convertFieldDec createDocumentation f parent env)).
  - intros s root parent _ env. reflexivity.
  - intros types IH root parent Hshared env.
    rewrite (Earlier.union_unfold createDocumentation), convertType_union.
    unfold bind at 1 3.
    rewrite (mapM_ext
               (fun t => r <- Earlier.convertType createDocumentation t None ;;
                         ret (stripNamespace r))
               (fun t => r <- convertType createDocumentation t false None ;;
                         ret (stripNamespace r))); [reflexivity|].
    change (forallb (fun member => Earlier.shared member None None) types = true) in Hshared.
    induction IH as [|t types Ht _ IHtypes]; [constructor|].
    simpl in Hshared. apply andb_true_iff in Hshared as [Hst Hsts].
    constructor; [|apply IHtypes; exact Hsts].
    intros env0. unfold bind. rewrite (Ht None None Hst env0). reflexivity.
  - intros r IH root parent Hshared env. exact (IH root parent Hshared env).
  - intros items IH root parent Hshared env. simpl in Hshared. simpl.
    unfold bind at 1 3. rewrite (IH None None Hshared env). reflexivity.
  - intros values IH root parent Hshared env. simpl in Hshared. simpl.
    unfold bind. rewrite (IH None None Hshared env). reflexivity.
  - intros e root parent Hshared env. simpl in Hshared. simpl.
    unfold IndexTs.convertEnum, convertEnum, document.
    destruct root as [root|]; [|reflexivity].
    apply String.eqb_eq in Hshared. rewrite Hshared. reflexivity.
  - intros precision scale root parent Hshared env. discriminate.
  - intros shape root parent _ env. reflexivity.
  - intros name doc fields IH root parent Hshared env.
    rewrite (Earlier.record_unfold createDocumentation), convertRecord_unfold.
    cbn [Earlier.sharedRecord] in Hshared. apply andb_true_iff in Hshared as [Hname Hfields].
    apply String.eqb_eq in Hname. rewrite Hname.
    unfold bind at 1 4.
    rewrite (mapM_ext
               (fun field => Earlier.convertFieldDec createDocumentation field
                               (Some (default (mkRecord name doc fields) root)))
               (fun field => convertFieldDec createDocumentation field
                               (Some (mkRecord name doc fields)))); [reflexivity|].
    cbn [rfields].
    generalize dependent (default (mkRecord name doc fields) root). intros root' Hfields.
    generalize dependent (mkRecord name doc fields). intros parent' _ Hfields.
    induction IH as [|f fs Hf _ IHfs]; [constructor|].
    simpl in Hfields. apply andb_true_iff in Hfields as [Hsf Hsfs].
    constructor; [|apply IHfs; exact Hsfs].
    intros env0. exact (Hf _ _ Hsf env0).
  - intros name doc default ty IH root parent Hshared env.
    rewrite (Earlier.field_unfold createDocumentation), convertFieldDec_unfold.
    cbn [Earlier.sharedField] in Hshared. apply andb_true_iff in Hshared as [Hdefault Hty].
    apply negb_true_iff in Hdefault.
    cbn [ftype fdefault fdoc fname]. rewrite Hdefault. cbn [negb]. rewrite andb_true_r.
    unfold bind at 1 3. rewrite (IH root parent Hty env). reflexivity.
Qed.

(** The two translators agree on the schemas they share: from every state,
    the same text and the same state after, or the same error. *)
Theorem translators_agree_on_shared_schemas :
  (forall type rootRecordType parentRecordType env,
     Earlier.shared type rootRecordType parentRecordType = true ->
     Earlier.convertType createDocumentation type rootRecordType env
     = convertType createDocumentation type false parentRecordType env) /\
  (forall schema env,
     Earlier.shared (topLevel schema) None None = true ->
     Earlier.avroToTypeScript createDocumentation schema env
     = avroToTypeScript createDocumentation schema env).
Proof.
  split.
  - intros type root parent env Hshared. apply convertType_shared. exact Hshared.
  - intros schema env Hshared. unfold Earlier.avroToTypeScript, avroToTypeScript.
    destruct schema as [r|e].
    + pose proof (convertType_shared (TRecord r) None None Hshared
                    (mkEnv (interfaces env) [] (console env))) as Hrun.
      change (Earlier.convertRecord createDocumentation r None
                (mkEnv (interfaces env) [] (console env))
              = convertRecord createDocumentation r None
                  (mkEnv (interfaces env) [] (console env))) in Hrun.
      unfold bind. rewrite Hrun. reflexivity.
    + reflexivity.
Qed.

End TwoTranslators.

(** ** The command line: the text read and the text written

    For each input file the command strips the comments from the schema
    text before parsing it: every match of its regular expression is
    replaced by the empty string, a match being, not right after a colon,
    either a block comment up to its first closing or two slashes and what
    follows them on the line.  It writes the translation with every tab
    replaced by two blanks.  Both replacements are embedded; reading,
    parsing and writing are not. *)
Module Cli.

(** *** Comments

    The schema text is a sequence of UTF-16 code units: [.] stops at the
    four line terminators, two of which lie outside ASCII. *)

Definition colon : N := 58.
Definition slash : N := 47.
Definition star : N := 42.

(** The code units [.] does not match. *)
Definition isLineTerminator (c : N) : bool :=
  (c =? 10)%N || (c =? 13)%N || (c =? 8232)%N || (c =? 8233)%N.

(** The lazy body of a block comment and its closing, on the text after an
    opening: the number of code units up to and including the first star
    followed by a slash, when there is one. *)
Fixpoint blockEnd (s : list N) : option nat :=
  match s with
  | [] => None
  | c :: rest =>
      match rest with
      | d :: _ =>
          if (c =? star)%N && (d =? slash)%N then Some 2%nat
          else option_map S (blockEnd rest)
      | [] => None
      end
  end.

(** [.*] on the text after two slashes: the number of code units before the
    first line terminator. *)
Fixpoint lineEnd (s : list N) : nat :=
  match s with
  | [] => 0%nat
  | c :: rest => if isLineTerminator c then 0%nat else S (lineEnd rest)
  end.

(** The length of the match of the expression at a position, [prev] being
    the code unit before it: none after a colon; a block comment when the
    text opens one that is closed; otherwise a line comment when the text
    opens one. *)
Definition matchAt (prev : option N) (s : list N) : option nat :=
  if bool_decide (prev = Some colon) then None
  else match s with
       | c :: d :: body =>
           if (c =? slash)%N && (d =? star)%N then
             option_map (fun n => S (S n)) (blockEnd body)
           else if (c =? slash)%N && (d =? slash)%N then Some (S (S (lineEnd body)))
           else None
       | _ => None
       end.

(** The global replacement by the empty string: the positions are tried
    from left to right, a match is dropped and the search goes on behind it
    ([skip] counts what is left of the match). *)
Fixpoint scan (prev : option N) (skip : nat) (s : list N) : list N :=
  match s with
  | [] => []
  | c :: rest =>
      match skip with
      | S n => scan (Some c) n rest
      | O =>
          match matchAt prev s with
          | Some (S n) => scan (Some c) n rest
          | _ => c :: scan (Some c) O rest
          end
      end
  end.

Definition strippedSchemaText (schemaText : list N) : list N := scan None 0 schemaText.

(** The code units of a text of ASCII characters. *)
Definition units (s : string) : list N := map N_of_ascii (list_ascii_of_string s).

(** The text opens a comment here: a slash before a slash or a star. *)
Definition opens (s : list N) : bool :=
  match s with
  | c :: d :: _ => (c =? slash)%N && ((d =? slash)%N || (d =? star)%N)
  | _ => false
  end.

(** Every place where the text opens a comment stands right after a colon. *)
Fixpoint protected (prev : option N) (s : list N) : bool :=
  match s with
  | [] => true
  | c :: rest =>
      (negb (opens s) || bool_decide (prev = Some colon)) && protected (Some c) rest
  end.

(** *** Tabs *)

(** Every tab of the text replaced by two blanks. *)
Fixpoint replaceTabs (text : string) : string :=
  match text with
  | EmptyString => ""
  | String c rest =>
      if Ascii.eqb c (ascii_of_nat 9) then String " " (String " " (replaceTabs rest))
      else String c (replaceTabs rest)
  end.

Lemma scan_sublist prev skip s : sublist (scan prev skip s) s.
Proof.
  revert prev skip. induction s as [|c s IH]; intros prev skip; [constructor|].
  cbn [scan]. destruct skip as [|n]; [|apply sublist_cons, IH].
  destruct (matchAt prev (c :: s)) as [[|n]|];
    [apply sublist_skip, IH | apply sublist_cons, IH | apply sublist_skip, IH].
Qed.

Lemma matchAt_closed prev s : opens s = false -> matchAt prev s = None.
Proof.
  intros Hopens. unfold matchAt. case_bool_decide; [reflexivity|].
  destruct s as [|c [|d body]]; try reflexivity.
  cbn [opens] in Hopens.
  destruct (c =? slash)%N; [|reflexivity].
  cbn [andb] in *. apply orb_false_iff in Hopens as [-> ->]. reflexivity.
Qed.

Lemma matchAt_colon s : matchAt (Some colon) s = None.
Proof. unfold matchAt. rewrite bool_decide_eq_true_2; reflexivity. Qed.

Lemma matchAt_prev p q s :
  p <> Some colon -> q <> Some colon -> matchAt p s = matchAt q s.
Proof.
  intros Hp Hq. unfold matchAt.
  rewrite !bool_decide_eq_false_2 by assumption. reflexivity.
Qed.

Lemma scan_protected prev s : protected prev s = true -> scan prev 0 s = s.
Proof.
  revert prev. induction s as [|c s IH]; intros prev Hs; [reflexivity|].
  cbn [protected] in Hs. apply andb_true_iff in Hs as [Hhere Hrest].
  cbn [scan]. rewrite (IH _ Hrest).
  assert (Hnone : matchAt prev (c :: s) = None).
  { apply orb_true_iff in Hhere as [Hclosed|Hcolon].
    - apply matchAt_closed. apply negb_true_iff. exact Hclosed.
    - apply bool_decide_eq_true_1 in Hcolon. subst prev. apply matchAt_colon. }
  rewrite Hnone. reflexivity.
Qed.

(** The code unit before the position behind [a]. *)
Definition before (prev : option N) (a : list N) : option N :=
  match last a with
  | Some c => Some c
  | None => prev
  end.

Lemma before_cons prev c a : before prev (c :: a) = before (Some c) a.
Proof.
  unfold before. destruct a as [|d a]; [reflexivity|].
  change (last (c :: d :: a)) with (last (d :: a)).
  destruct (last (d :: a)) eqn:Hlast; [reflexivity|].
  apply last_None in Hlast. discriminate.
Qed.

Lemma scan_prefix a : forall prev s,
  protected prev a = true -> last a <> Some slash ->
  scan prev 0 (a ++ s) = a ++ scan (before prev a) 0 s.
Proof.
  induction a as [|c a IH]; intros prev s Ha Hlast; [reflexivity|].
  cbn [protected] in Ha. apply andb_true_iff in Ha as [Hhere Hrest].
  change ((c :: a) ++ s) with (c :: (a ++ s)). cbn [scan].
  assert (Hnone : matchAt prev (c :: a ++ s) = None).
  { apply orb_true_iff in Hhere as [Hclosed|Hcolon].
    - apply matchAt_closed. apply negb_true_iff in Hclosed.
      destruct a as [|d a].
      + cbn [app]. destruct s as [|d s]; [reflexivity|]. cbn [opens].
        destruct (N.eqb_spec c slash) as [->|_]; [|reflexivity].
        exfalso. apply Hlast. reflexivity.
      + exact Hclosed.
    - apply bool_decide_eq_true_1 in Hcolon. subst prev. apply matchAt_colon. }
  rewrite Hnone, before_cons, <- app_comm_cons. f_equal. apply IH; [exact Hrest|].
  destruct a as [|d a]; [discriminate | exact Hlast].
Qed.

Lemma scan_skip x : forall prev s,
  scan prev (length x) (x ++ s) = scan (before prev x) 0 s.
Proof.
  induction x as [|c x IH]; intros prev s; [reflexivity|].
  rewrite before_cons. exact (IH (Some c) s).
Qed.

Lemma scan_prev p q s :
  p <> Some colon -> q <> Some colon -> scan p 0 s = scan q 0 s.
Proof.
  intros Hp Hq. destruct s as [|c s]; [reflexivity|].
  cbn [scan]. rewrite (matchAt_prev p q _ Hp Hq). reflexivity.
Qed.

Lemma scan_closed p q s : opens s = false -> scan p 0 s = scan q 0 s.
Proof.
  intros Hclosed. destruct s as [|c s]; [reflexivity|].
  cbn [scan]. rewrite !matchAt_closed by exact Hclosed. reflexivity.
Qed.

Lemma blockEnd_cons c d s :
  blockEnd (c :: d :: s)
  = if (c =? star)%N && (d =? slash)%N then Some 2%nat else option_map S (blockEnd (d :: s)).
Proof. reflexivity. Qed.

Lemma blockEnd_first body rest :
  blockEnd body = None ->
  blockEnd (body ++ star :: slash :: rest) = Some (length body + 2)%nat.
Proof.
  induction body as [|c body IH]; intros Hnone; [reflexivity|].
  destruct body as [|d body].
  - change ([c] ++ star :: slash :: rest) with (c :: star :: slash :: rest).
    rewrite blockEnd_cons.
    change ((star =? slash)%N) with false. rewrite andb_false_r. reflexivity.
  - rewrite blockEnd_cons in Hnone.
    change ((c :: d :: body) ++ star :: slash :: rest)
      with (c :: d :: (body ++ star :: slash :: rest)).
    rewrite blockEnd_cons.
    destruct ((c =? star)%N && (d =? slash)%N); [discriminate|].
    change (d :: (body ++ star :: slash :: rest))
      with ((d :: body) ++ star :: slash :: rest).
    destruct (blockEnd (d :: body)); [discriminate|].
    rewrite IH by reflexivity. reflexivity.
Qed.

Lemma lineEnd_first body rest :
  Forall (fun c => isLineTerminator c = false) body ->
  from_option isLineTerminator true (head rest) = true ->
  lineEnd (body ++ rest) = length body.
Proof.
  intros Hbody Hrest. induction Hbody as [|c body Hc _ IH].
  - destruct rest as [|t rest]; [reflexivity|]. cbn in Hrest. cbn [app lineEnd].
    rewrite Hrest. reflexivity.
  - cbn [app lineEnd length]. rewrite Hc, IH. reflexivity.
Qed.

(** Stripping the comments only deletes: what is left is the text with
    some code units dropped, in order.  A text that opens a comment nowhere
    but right after a colon, as [http://...] does, is not changed at all. *)
Theorem stripping_comments_only_deletes :
  (forall schemaText, sublist (strippedSchemaText schemaText) schemaText) /\
  (forall schemaText,
     protected None schemaText = true -> strippedSchemaText schemaText = schemaText) /\
  (forall schemaText,
     slash ∉ schemaText -> strippedSchemaText schemaText = schemaText).
Proof.
  split; [|split].
  - intros s. apply scan_sublist.
  - intros s Hs. apply scan_protected. exact Hs.
  - intros s Hs. apply scan_protected.
    generalize (@None N). induction s as [|c s IH]; intros prev; [reflexivity|].
    apply not_elem_of_cons in Hs as [Hc Hs].
    cbn [protected]. rewrite (IH Hs), andb_true_r.
    destruct s as [|d s]; [reflexivity|]. cbn [opens].
    destruct (N.eqb_spec c slash) as [->|_]; [contradiction | reflexivity].
Qed.

(** A comment behind a text that opens none (but after colons) and ends
    neither with a colon nor with a slash is removed whole, and the rest is
    stripped as if it stood alone: a block comment up to its first closing,
    whatever follows; a line comment up to the line terminator or the end of
    the text. *)
Theorem comments_are_removed :
  (forall a body rest,
     protected None a = true -> last a <> Some slash -> last a <> Some colon ->
     blockEnd body = None ->
     strippedSchemaText (a ++ [slash; star] ++ body ++ [star; slash] ++ rest)
     = a ++ strippedSchemaText rest) /\
  (forall a body rest,
     protected None a = true -> last a <> Some slash -> last a <> Some colon ->
     Forall (fun c => isLineTerminator c = false) body ->
     from_option isLineTerminator true (head rest) = true ->
     strippedSchemaText (a ++ [slash; slash] ++ body ++ rest)
     = a ++ strippedSchemaText rest).
Proof.
  assert (Hbefore : forall a, last a <> Some colon -> before None a <> Some colon).
  { intros a Ha. unfold before. destruct (last a); [exact Ha | discriminate]. }
  split.
  - intros a body rest Ha Hslash Hcolon Hbody. unfold strippedSchemaText.
    rewrite (scan_prefix a None _ Ha Hslash). f_equal.
    change ([slash; star] ++ body ++ [star; slash] ++ rest)
      with (slash :: star :: (body ++ star :: slash :: rest)).
    cbn [scan]. unfold matchAt.
    rewrite bool_decide_eq_false_2 by (apply Hbefore; exact Hcolon).
    change ((slash =? slash)%N && (star =? star)%N) with true. cbv iota.
    rewrite (blockEnd_first body rest Hbody). cbn [option_map].
    replace (body ++ star :: slash :: rest) with ((body ++ [star; slash]) ++ rest)
      by (rewrite <- app_assoc; reflexivity).
    replace (length body + 2)%nat with (length (body ++ [star; slash]))
      by (rewrite length_app; reflexivity).
    rewrite scan_skip. apply scan_prev; [|discriminate].
    unfold before. rewrite last_app. cbn. discriminate.
  - intros a body rest Ha Hslash Hcolon Hbody Hrest. unfold strippedSchemaText.
    rewrite (scan_prefix a None _ Ha Hslash). f_equal.
    change ([slash; slash] ++ body ++ rest) with (slash :: slash :: (body ++ rest)).
    cbn [scan]. unfold matchAt.
    rewrite bool_decide_eq_false_2 by (apply Hbefore; exact Hcolon).
    change ((slash =? slash)%N && (slash =? star)%N) with false.
    change ((slash =? slash)%N && (slash =? slash)%N) with true. cbv iota.
    rewrite (lineEnd_first body rest Hbody Hrest).
    change (slash :: (body ++ rest)) with ((slash :: body) ++ rest).
    change (S (length body)) with (length (slash :: body)).
    rewrite scan_skip. apply scan_closed.
    destruct rest as [|t [|d rest]]; try reflexivity.
    cbn in Hrest. cbn [opens].
    destruct (N.eqb_spec t slash) as [->|_]; [discriminate Hrest | reflexivity].
Qed.

Lemma replaceTabs_app a b : replaceTabs (a +:+ b) = replaceTabs a +:+ replaceTabs b.
Proof.
  induction a as [|c a IH]; [reflexivity|].
  change (String c a +:+ b) with (String c (a +:+ b)). cbn [replaceTabs].
  rewrite IH. destruct (Ascii.eqb c (ascii_of_nat 9)); reflexivity.
Qed.

Lemma replaceTabs_join sep blocks :
  replaceTabs (join sep blocks) = join (replaceTabs sep) (map replaceTabs blocks).
Proof.
  induction blocks as [|x blocks IH]; [reflexivity|].
  destruct blocks as [|y blocks]; [reflexivity|].
  change (join sep (x :: y :: blocks)) with (x +:+ sep +:+ join sep (y :: blocks)).
  rewrite !replaceTabs_app, IH. reflexivity.
Qed.

(** The text written holds no tab, whatever was translated: each tab has
    become two blanks, also inside names and documentation, and nothing
    else has changed.  So a field's line is written with the two blanks in
    front of the name. *)
Theorem written_text_has_no_tab :
  (forall text, ascii_of_nat 9 ∉ list_ascii_of_string (replaceTabs text)) /\
  (forall text,
     ascii_of_nat 9 ∉ list_ascii_of_string text -> replaceTabs text = text) /\
  (forall a b, replaceTabs (a +:+ b) = replaceTabs a +:+ replaceTabs b) /\
  (forall blocks,
     replaceTabs (join LF blocks) = join LF (map replaceTabs blocks)) /\
  (forall doc name optional replacedType,
     replaceTabs (fieldLine doc name optional replacedType)
     = replaceTabs doc +:+ "  " +:+ replaceTabs name +:+ (if optional then "?" else "")
       +:+ ": " +:+ replaceTabs replacedType +:+ ";").
Proof.
  split; [|split; [|split; [exact replaceTabs_app|split]]].
  - intros text. induction text as [|c text IH]; cbn [replaceTabs].
    + apply not_elem_of_nil.
    + destruct (Ascii.eqb_spec c (ascii_of_nat 9)) as [->|Hne]; cbn [list_ascii_of_string].
      * rewrite !not_elem_of_cons. repeat split; [discriminate | discriminate | exact IH].
      * rewrite not_elem_of_cons. split; [congruence | exact IH].
  - intros text. induction text as [|c text IH]; intros Htab; [reflexivity|].
    cbn [list_ascii_of_string] in Htab. apply not_elem_of_cons in Htab as [Hne Htab].
    cbn [replaceTabs]. destruct (Ascii.eqb_spec c (ascii_of_nat 9)) as [->|_]; [congruence|].
    rewrite (IH Htab). reflexivity.
  - intros blocks. exact (replaceTabs_join LF blocks).
  - intros doc name optional ty. unfold fieldLine.
    rewrite !replaceTabs_app. destruct optional; reflexivity.
Qed.

End Cli.

(** ** Worked examples *)

(** C2 fails for a declared name with a namespace: the record is registered
    under [com.acme.User], the reference is looked up as [User], and the
    reference text comes back instead of [IUser].  It fails for every enum in
    its first half: nothing is registered. *)
Lemma namespaced_record_reference_unresolved :
  convertRecord specDocumentation acmeUser None emptyEnv = Returns "IUser" acmeUserEnv /\
  interfaces acmeUserEnv !! "com.acme.User" = Some "IUser" /\
  convertPrimitive "com.acme.User" false acmeUserEnv = Returns "User" acmeUserEnv /\
  convertPrimitive "com.acme.User" false acmeUserEnv <> Returns "IUser" acmeUserEnv /\
  (exists env', convertEnum specDocumentation color emptyEnv = Returns "Color" env' /\
                interfaces env' !! "Color" = None).
Proof.
  split; [vm_compute; reflexivity|].
  split; [vm_compute; reflexivity|].
  split; [vm_compute; reflexivity|].
  split; [vm_compute; discriminate|].
  eexists. split; [apply convertEnum_returns|]. vm_compute. reflexivity.
Qed.

Lemma registered_record_is_resolved_witness :
  interfaces userEnv !! "User" = Some "IUser" /\
  convertPrimitive "org.example.User" true userEnv = Returns "IUser" userEnv.
Proof.
  destruct (registered_record_is_resolved specDocumentation) as (Hrecord & _ & Href & _).
  destruct (Hrecord user None emptyEnv "IUser" userEnv) as (_ & Hreg).
  - vm_compute. reflexivity.
  - discriminate.
  - split; [exact Hreg|].
    apply (Href userEnv "User"); [exact Hreg | vm_compute; reflexivity | |].
    + refine (bool_decide_unpack _ _). vm_compute. exact I.
    + vm_compute. reflexivity.
Defined.

(** C1 fails at a default that is falsy and not [null]: the field
    [{name: "count", type: ["null", "int"], default: 0}] has its default key
    present, yet [hasDefaultValue] is false and the line carries the optional
    marker. *)
Theorem zero_default_is_rendered_optional :
  fdefault countField = Some (JNumber 0) /\
  isOptional (ftype countField) = true /\
  hasDefault (fdefault countField) = false /\
  hasDefault (Some (JBool false)) = false /\
  hasDefault (Some (JString "")) = false /\
  hasDefault (Some JNull) = true /\
  convertFieldDec specDocumentation countField None emptyEnv
    = Returns (TAB +:+ "count?: null | undefined | number;") emptyEnv.
Proof. repeat split; vm_compute; reflexivity. Qed.

(** C3 fails in its last part: [a.Person] and [b.Person] are two parents,
    and the [Address] nested in each gets the one name [IPersonAddress]. *)
Lemma same_trailing_segment_parents_collide :
  rname personA <> rname personB /\
  interfaceName address (Some personA) = interfaceName address (Some personB) /\
  convertRecord specDocumentation address (Some personA) emptyEnv
    = Returns "IPersonAddress" personAddressEnv /\
  convertRecord specDocumentation address (Some personB) emptyEnv
    = Returns "IPersonAddress" personAddressEnv /\
  (exists envA envB,
     avroToTypeScript specDocumentation (inl personA) emptyEnv = Returns personText envA /\
     avroToTypeScript specDocumentation (inl personB) emptyEnv = Returns personText envB).
Proof.
  split; [discriminate|]. split; [reflexivity|].
  split; [vm_compute; reflexivity|]. split; [vm_compute; reflexivity|].
  do 2 eexists. split; vm_compute; reflexivity.
Qed.

Lemma record_identifier_witness :
  "ICompanyAddress" = "I" +:+ stripNamespace "Company" +:+ stripNamespace "Address" /\
  interfaceName address (Some company) <> interfaceName address (Some personA).
Proof.
  destruct (record_identifier specDocumentation) as (Hname & _ & _ & _ & _ & Hdistinct).
  split.
  - apply (Hname address (Some company) emptyEnv "ICompanyAddress" companyAddressEnv).
    vm_compute. reflexivity.
  - apply Hdistinct; [reflexivity | vm_compute; discriminate].
Defined.

(** C4 fails at a declared name with a namespace: the enum
    [com.acme.Color] is declared and returned under its whole name, in both
    translators of the sources, where a record would have been stripped.
    The earlier translator moreover names [Color] below the root record
    [Order] after both. *)
Theorem enum_identifier_keeps_namespace :
  convertEnum specDocumentation acmeColor emptyEnv = Returns "com.acme.Color" acmeColorEnv /\
  IndexTs.convertEnum specDocumentation acmeColor None emptyEnv
    = Returns "com.acme.Color" acmeColorEnv /\
  stripNamespace (ename acmeColor) = "Color" /\
  interfaceName acmeUser None = "IUser" /\
  (exists env',
     IndexTs.convertEnum specDocumentation color (Some order) emptyEnv
     = Returns "OrderColor" env').
Proof.
  split; [vm_compute; reflexivity|]. split; [vm_compute; reflexivity|].
  split; [vm_compute; reflexivity|]. split; [vm_compute; reflexivity|].
  eexists. vm_compute. reflexivity.
Qed.

Lemma union_rendering_witness :
  (convertType specDocumentation stringStringNull false None emptyEnv
     = Returns "string | null | undefined" emptyEnv /\
   convertType specDocumentation stringStringNull true None emptyEnv
     = Returns "string | null" emptyEnv) /\
  convertType specDocumentation
    (TUnion [TString "org.example.User"; TString "User"; TString "null"]) false None userEnv
    = Returns "IUser | null | undefined" userEnv /\
  (convertFieldDec specDocumentation (mkField "s" None None stringStringNull) None emptyEnv
     = Returns (TAB +:+ "s?: string | null | undefined;") emptyEnv /\
   convertFieldDec specDocumentation (mkField "s" None (Some JNull) stringStringNull)
     None emptyEnv
     = Returns (TAB +:+ "s: string | null;") emptyEnv).
Proof.
  destruct (union_rendering specDocumentation) as (Hunion & Hexample & _ & Hfield).
  split; [|split].
  - apply Hexample; [reflexivity | repeat constructor].
  - apply (Hunion _ false None userEnv ["IUser"; "IUser"; "null | undefined"] userEnv).
    + vm_compute. reflexivity.
    + vm_compute. reflexivity.
  - apply (Hfield emptyEnv "s" None None); [reflexivity | repeat constructor].
Defined.

(** C5 fails for a field whose default is present and falsy: the union
    [["string", "string", "null"]] in a field with the default [""], [0] or
    [false] is rendered as in a field without a default, optional and with
    [null | undefined], where a default of [null] gives [string | null]. *)
Theorem falsy_default_union_is_rendered_as_without_default :
  convertFieldDec specDocumentation
    (mkField "s" None (Some (JString "")) stringStringNull) None emptyEnv
    = Returns (TAB +:+ "s?: string | null | undefined;") emptyEnv /\
  convertFieldDec specDocumentation
    (mkField "s" None (Some (JNumber 0)) stringStringNull) None emptyEnv
    = Returns (TAB +:+ "s?: string | null | undefined;") emptyEnv /\
  convertFieldDec specDocumentation
    (mkField "s" None (Some (JBool false)) stringStringNull) None emptyEnv
    = Returns (TAB +:+ "s?: string | null | undefined;") emptyEnv /\
  convertFieldDec specDocumentation
    (mkField "s" None None stringStringNull) None emptyEnv
    = Returns (TAB +:+ "s?: string | null | undefined;") emptyEnv /\
  convertFieldDec specDocumentation
    (mkField "s" None (Some JNull) stringStringNull) None emptyEnv
    = Returns (TAB +:+ "s: string | null;") emptyEnv.
Proof. repeat split; vm_compute; reflexivity. Qed.

(** C6 fails for a record reached through an array: [Item], the items of
    a field of [Order], is translated without [Order] as its parent and
    named [IItem], not [IOrderItem]. *)
Theorem record_in_array_gets_no_parent :
  convertFieldDec specDocumentation itemsField (Some order) emptyEnv
    = Returns (TAB +:+ "items: IItem[];") itemEnv /\
  interfaces itemEnv !! "Item" = Some "IItem" /\
  interfaceName item (Some order) = "IOrderItem" /\
  (exists env',
     avroToTypeScript specDocumentation (inl order) emptyEnv
     = Returns ("export interface IItem {" +:+ LF +:+ LF +:+ "}" +:+ LF +:+ LF
                +:+ "export interface IOrder {" +:+ LF
                +:+ TAB +:+ "items: IItem[];" +:+ LF +:+ "}" +:+ LF) env').
Proof.
  split; [vm_compute; reflexivity|]. split; [vm_compute; reflexivity|].
  split; [vm_compute; reflexivity|].
  eexists. vm_compute. reflexivity.
Qed.

Lemma parent_reaches_direct_records_only_witness :
  "IItem" = "I" +:+ stripNamespace (rname item) /\
  (exists lines,
     last (buffer itemEnv)
     = Some (interfaceDef (document specDocumentation (rdoc item) "")
               ("I" +:+ stripNamespace (rname item)) lines)) /\
  convertType specDocumentation (TArray (TRecord item)) false (Some order)
  = convertType specDocumentation (TArray (TRecord item)) false None /\
  (exists lines,
     last (buffer companyAddressEnv)
     = Some (document specDocumentation (rdoc address) "" +:+ "export interface "
             +:+ ("I" +:+ stripNamespace (rname company) +:+ stripNamespace (rname address))
             +:+ " {" +:+ LF +:+ join LF lines +:+ LF +:+ "}" +:+ LF)).
Proof.
  destruct (parent_reaches_direct_records_only specDocumentation)
    as (_ & _ & _ & _ & Hname & Harray & _ & Hother & _ & Hdirect & _).
  split; [|split; [|split]].
  - apply (Hname item false emptyEnv "IItem" itemEnv). vm_compute. reflexivity.
  - apply (Harray item false (Some order) emptyEnv "IItem[]" itemEnv).
    vm_compute. reflexivity.
  - apply Hother. discriminate.
  - apply (Hdirect (mkField "seat" None None (TRecord address)) address company emptyEnv
             (TAB +:+ "seat: ICompanyAddress;") companyAddressEnv eq_refl).
    vm_compute. reflexivity.
Defined.

(** C7 fails for [null] as the items of an array: under a default it is
    rendered [null], and [null | undefined] only without one. *)
Lemma null_items_follow_the_default :
  hasDefault (fdefault tagsField) = true /\
  convertFieldDec specDocumentation tagsField None emptyEnv
    = Returns (TAB +:+ "tags: null[];") emptyEnv /\
  convertFieldDec specDocumentation tagsField None emptyEnv
    <> Returns (TAB +:+ "tags: Array<null | undefined>;") emptyEnv /\
  convertFieldDec specDocumentation
    (mkField "tags" None None (TArray (TString "null"))) None emptyEnv
    = Returns (TAB +:+ "tags: Array<null | undefined>;") emptyEnv.
Proof.
  split; [reflexivity|]. split; [vm_compute; reflexivity|].
  split; [vm_compute; discriminate | vm_compute; reflexivity].
Qed.

Lemma hasDefaultValue_reaches_items_and_values_witness :
  convertType specDocumentation (TArray (TString "null")) true None emptyEnv
    = Returns "null[]" emptyEnv /\
  convertType specDocumentation (TArray (TString "null")) false None emptyEnv
    = Returns "Array<null | undefined>" emptyEnv /\
  convertFieldDec specDocumentation tagsField None emptyEnv
    = Returns (TAB +:+ "tags: null[];") emptyEnv /\
  convertFieldDec specDocumentation
    (mkField "byKey" None None (TMap (TString "null"))) None emptyEnv
    = Returns (TAB +:+ "byKey: { [key: string]: null | undefined };") emptyEnv /\
  hasDefault (Some (JArray [])) = true.
Proof.
  destruct (hasDefaultValue_reaches_items_and_values specDocumentation)
    as (_ & _ & _ & Harray & Hfield & Hvalues & _ & _ & _ & Htruthy).
  split; [|split; [|split; [|split]]].
  - apply Harray; first [reflexivity | repeat constructor].
  - apply Harray; first [reflexivity | repeat constructor].
  - apply (Hfield tagsField None emptyEnv); first [reflexivity | repeat constructor].
  - apply (Hvalues (mkField "byKey" None None (TMap (TString "null"))) None emptyEnv);
      first [reflexivity | repeat constructor].
  - apply Htruthy. reflexivity.
Defined.

Lemma array_rendering_witness :
  convertType specDocumentation (TArray unionAB) false None emptyEnv
    = Returns "Array<A | B>" emptyEnv /\
  convertType specDocumentation (TArray (TString "User")) false None userEnv
    = Returns "IUser[]" userEnv /\
  isUnion "IUser" = false.
Proof.
  destruct (array_rendering specDocumentation) as (Harray & _ & Hshape).
  split; [|split].
  - apply (Harray unionAB false None emptyEnv "A | B" emptyEnv); vm_compute; reflexivity.
  - apply (Harray (TString "User") false None userEnv "IUser" userEnv); vm_compute; reflexivity.
  - apply (Hshape (TString "User") false None userEnv "IUser[]" userEnv);
      vm_compute; reflexivity.
Defined.

(** The translation of [reading]: the sentinel stands where the type of
    [id] should, and [value] is translated after it. *)
Example reading_translation :
  avroToTypeScript specDocumentation (inl reading) emptyEnv
  = Returns ("export interface IReading {" +:+ LF
             +:+ TAB +:+ "id: UNKNOWN;" +:+ LF
             +:+ TAB +:+ "value: number;" +:+ LF +:+ "}" +:+ LF)
      (mkEnv {["Reading" := "IReading"]}
         ["export interface IReading {" +:+ LF
          +:+ TAB +:+ "id: UNKNOWN;" +:+ LF
          +:+ TAB +:+ "value: number;" +:+ LF +:+ "}" +:+ LF]
         [TOther "fixed"]).
Proof. vm_compute. reflexivity. Qed.

Lemma unrecognized_shape_is_not_fatal_witness :
  avroToTypeScript specDocumentation (inl reading) emptyEnv
  = Returns ("export interface IReading {" +:+ LF
             +:+ TAB +:+ "id: UNKNOWN;" +:+ LF
             +:+ TAB +:+ "value: number;" +:+ LF +:+ "}" +:+ LF)
      (mkEnv {["Reading" := "IReading"]}
         ["export interface IReading {" +:+ LF
          +:+ TAB +:+ "id: UNKNOWN;" +:+ LF
          +:+ TAB +:+ "value: number;" +:+ LF +:+ "}" +:+ LF]
         [TOther "fixed"]) /\
  exists text env',
    avroToTypeScript specDocumentation (inl reading) emptyEnv = Returns text env' /\
    console env' = [TOther "fixed"] /\
    length (buffer env') = 1%nat /\
    Forall2 startsWith ["export interface IReading {" +:+ LF] (buffer env') /\
    text = join LF (buffer env').
Proof.
  destruct (unrecognized_shape_is_not_fatal specDocumentation)
    as (_ & _ & _ & _ & _ & _ & Hplace & _ & Hruns).
  split.
  - apply (Hplace "Reading" None [] "id" None None "fixed"
             [mkField "value" None None (TString "double")]
             emptyEnv [] emptyEnv [TAB +:+ "value: number;"]
             (mkEnv ∅ [] [TOther "fixed"]));
      vm_compute; reflexivity.
  - apply (Hruns (inl reading) emptyEnv); reflexivity.
Defined.

(** The one way a translation raises: [Registry] has a field whose type is
    a record named [hasOwnProperty]; once that record is registered, the
    lookup for the field line calls a string. *)
Example hasOwnProperty_record_raises :
  avroToTypeScript specDocumentation (inl registry) emptyEnv
  = Throws "TypeError: interfaces.hasOwnProperty is not a function".
Proof. vm_compute. reflexivity. Qed.

Lemma field_type_is_resolved_again_witness :
  interfaces numberEnv !! rname numberRecord = Some "Inumber" /\
  convertFieldDec specDocumentation valueField None numberEnv
    = Returns (TAB +:+ "value: Inumber;") numberEnv.
Proof.
  destruct (field_type_is_resolved_again specDocumentation) as (_ & Hregisters & _ & Hfield).
  split.
  - apply (Hregisters numberRecord None emptyEnv "Inumber" numberEnv);
      [vm_compute; reflexivity | discriminate].
  - apply (Hfield valueField None numberEnv "Inumber" "number" numberEnv);
      vm_compute; reflexivity.
Defined.

Lemma stripNamespace_after_last_dot_witness :
  stripNamespace ("com.acme" +:+ "." +:+ "User") = "User" /\ stripNamespace "User" = "User".
Proof.
  destruct stripNamespace_after_last_dot as [Hafter Hwhole].
  split; [apply Hafter | apply Hwhole];
    refine (bool_decide_unpack _ _); vm_compute; exact I.
Defined.

Lemma optional_marker_witness :
  exists replacedType,
    TAB +:+ "count?: null | undefined | number;"
    = fieldLine (document specDocumentation (fdoc countField) TAB) (fname countField)
        (isOptional (ftype countField) && negb (hasDefault (fdefault countField)))
        replacedType.
Proof.
  destruct (optional_marker specDocumentation) as (Hline & _ & _).
  apply (Hline countField None emptyEnv _ emptyEnv). vm_compute. reflexivity.
Defined.

Lemma enum_rendering_witness :
  convertType specDocumentation (TEnum color) false (Some order) emptyEnv
  = Returns "Color"
      (mkEnv ∅
         ["export enum Color {" +:+ LF +:+ TAB +:+ "RED = 'RED'," +:+ LF
          +:+ TAB +:+ "GREEN = 'GREEN'" +:+ LF +:+ "}" +:+ LF] []).
Proof.
  apply (enum_rendering specDocumentation color false (Some order) emptyEnv).
  refine (bool_decide_unpack _ _). vm_compute. exact I.
Defined.

Lemma table_after_translation_witness :
  exists text env',
    avroToTypeScript specDocumentation (inl personA) emptyEnv = Returns text env' /\
    interfaces env' = register ∅ [("Address", "IPersonAddress"); ("a.Person", "IPerson")].
Proof.
  destruct (table_after_translation specDocumentation) as (_ & Htop & _).
  eexists. eexists. split; [vm_compute; reflexivity|].
  apply (Htop (inl personA) emptyEnv personText). vm_compute. reflexivity.
Defined.

Lemma buffer_and_console_are_append_only_witness :
  match avroToTypeScript specDocumentation (inl reading) emptyEnv,
        avroToTypeScript specDocumentation (inl reading) acmeColorEnv with
  | Returns text1 e1, Returns text2 e2 =>
      text1 = text2 /\ interfaces e1 = interfaces e2 /\ buffer e1 = buffer e2
  | Throws error1, Throws error2 => error1 = error2
  | _, _ => False
  end.
Proof.
  destruct (buffer_and_console_are_append_only specDocumentation) as (_ & _ & Hsame).
  apply (Hsame (inl reading) emptyEnv acmeColorEnv). reflexivity.
Defined.

Lemma blocks_follow_the_schema_witness :
  exists blocks,
    personText = join LF blocks /\
    Forall2 startsWith
      ["export interface IPersonAddress {" +:+ LF; "export interface IPerson {" +:+ LF]
      blocks.
Proof.
  destruct (blocks_follow_the_schema specDocumentation) as (_ & Htop).
  eapply (Htop (inl personA) emptyEnv personText). vm_compute. reflexivity.
Defined.

Lemma union_members_are_distinct_witness :
  exists rendered members,
    mapM (fun t => convertType specDocumentation t false None)
      [TString "org.example.User"; TString "User"; TString "null"] userEnv
      = Returns rendered userEnv /\
    "IUser | null | undefined" = join " | " members /\
    NoDup members /\
    (forall n,
       n ∈ members <->
       n ∈ map (fun r => resolved (interfaces userEnv) (stripNamespace r)) rendered) /\
    sublist members
      (map (fun r => resolved (interfaces userEnv) (stripNamespace r)) rendered).
Proof.
  destruct (union_members_are_distinct specDocumentation) as (_ & Hunion).
  apply (Hunion [TString "org.example.User"; TString "User"; TString "null"] false None
           userEnv "IUser | null | undefined" userEnv).
  vm_compute. reflexivity.
Defined.

Lemma default_matters_to_null_alone_witness :
  convertFieldDec specDocumentation
    (mkField "value" None (Some (JNumber 1)) (TArray (TString "double"))) None emptyEnv
  = convertFieldDec specDocumentation
      (mkField "value" None None (TArray (TString "double"))) None emptyEnv.
Proof.
  destruct (default_matters_to_null_alone specDocumentation) as (_ & Hfield).
  apply Hfield. reflexivity.
Defined.

Lemma earlier_names_follow_the_root_witness :
  match Earlier.convertType specDocumentation
          (TRecord (mkRecord "Firm" None [mkField "head" None None (TRecord personA)]))
          None emptyEnv with
  | Returns _ env' => interfaces env' !! "Address" = Some "IFirmAddress"
  | Throws _ => False
  end /\
  match convertType specDocumentation
          (TRecord (mkRecord "Firm" None [mkField "head" None None (TRecord personA)]))
          false None emptyEnv with
  | Returns _ env' => interfaces env' !! "Address" = Some "IPersonAddress"
  | Throws _ => False
  end.
Proof.
  destruct (earlier_names_follow_the_root specDocumentation) as (_ & _ & Hchain).
  destruct (Hchain address "a.Person" None "home" None None "Firm" None "head" None None)
    as [Hearlier Hlater]; try discriminate.
  split.
  - destruct (Earlier.convertType _ _ _ _) as [rendered env'|error] eqn:Hrun.
    + exact (Hearlier _ _ _ Hrun).
    + vm_compute in Hrun. discriminate.
  - destruct (convertType _ _ _ _ _) as [rendered env'|error] eqn:Hrun.
    + exact (Hlater _ _ _ _ Hrun).
    + vm_compute in Hrun. discriminate.
Defined.

Lemma translators_agree_on_shared_schemas_witness :
  Earlier.avroToTypeScript specDocumentation (inl personA) emptyEnv
  = avroToTypeScript specDocumentation (inl personA) emptyEnv.
Proof.
  destruct (translators_agree_on_shared_schemas specDocumentation) as (_ & Htop).
  apply Htop. vm_compute. reflexivity.
Defined.

Lemma stripping_comments_only_deletes_witness :
  Cli.strippedSchemaText (Cli.units "see http://avro.apache.org/docs")
  = Cli.units "see http://avro.apache.org/docs".
Proof.
  destruct Cli.stripping_comments_only_deletes as (_ & Hkept & _).
  apply Hkept. vm_compute. reflexivity.
Defined.

Lemma comments_are_removed_witness :
  Cli.strippedSchemaText
    (Cli.units "{ " ++ [Cli.slash; Cli.star] ++ Cli.units " a * note "
     ++ [Cli.star; Cli.slash] ++ Cli.units " }")
  = Cli.units "{ " ++ Cli.strippedSchemaText (Cli.units " }") /\
  Cli.strippedSchemaText
    (Cli.units "[1, " ++ [Cli.slash; Cli.slash] ++ Cli.units " one"
     ++ 10%N :: Cli.units "2]")
  = Cli.units "[1, " ++ Cli.strippedSchemaText (10%N :: Cli.units "2]").
Proof.
  destruct Cli.comments_are_removed as (Hblock & Hline).
  split.
  - apply Hblock; try discriminate; vm_compute; reflexivity.
  - apply Hline; try discriminate; try (vm_compute; reflexivity).
    repeat constructor.
Defined.

Lemma written_text_has_no_tab_witness :
  Cli.replaceTabs "export interface IUser {" = "export interface IUser {".
Proof.
  destruct Cli.written_text_has_no_tab as (_ & Hsame & _).
  apply Hsame. refine (bool_decide_unpack _ _). vm_compute. exact I.
Defined.
